(** * The syntax highlighter of ssgen, embedded in Rocq

    The highlighter turns the lines of a code block into one
    [<pre><code>] block whose [<span>]s carry the class names of the theme
    colours.  This file embeds its functions one by one and proves what the
    specification says about them; it goes on with the style sheet of a
    theme and with the helpers of the generator that read a colour and
    change the extension of a file name, and with further properties of all
    of these.

    Conventions of the embedding:
    - a JavaScript number that the program uses as an integer (packed
      metadata, character offsets, indices) is a [Z]; the 32-bit
      conversions that the bit operators apply are written out;
    - a JavaScript string is a [string]; a character stands for one code
      unit below 256;
    - [undefined] is [None];
    - a plain object used as a dictionary is a [gmap]; a [Map], whose
      iteration order is observable, is an association list in insertion
      order;
    - objects that are mutated in place live in an explicit store and are
      named by their address. *)

From Stdlib Require Import ZArith Lia Bool List Ascii String DecimalString.
From Stdlib Require DecimalPos DecimalZ.
From stdpp Require Import base option list functions gmap strings.
From Equations Require Import Equations.

Local Open Scope string_scope.
Local Open Scope list_scope.
Local Open Scope Z_scope.

(** * The program *)

(** ** Numbers *)

Module JS.

(** [ToInt32] and [ToUint32] of ECMAScript, on integer-valued numbers. *)
Definition ToInt32 (x : Z) : Z := (x + 2 ^ 31) mod 2 ^ 32 - 2 ^ 31.
Definition ToUint32 (x : Z) : Z := x mod 2 ^ 32.

(** [undefined] converts to [NaN], which the 32-bit conversions send to 0. *)
Definition ToIntegral (v : option Z) : Z := default 0 v.

(** [a & b]: both operands through [ToInt32], the result is an int32. *)
Definition band (a b : Z) : Z := Z.land (ToInt32 a) (ToInt32 b).

(** [a >>> n]: the left operand through [ToUint32], the shift count is the
    low five bits of the right one. *)
Definition ushr (a n : Z) : Z := Z.shiftr (ToUint32 a) (Z.land (ToUint32 n) 31).

(** [!!x] on a number. *)
Definition truthy (x : Z) : bool := negb (Z.eqb x 0).

(** Number to string, for integers: decimal digits, a minus sign when
    negative. *)
Definition toString (x : Z) : string := NilZero.string_of_int (Z.to_int x).

End JS.

(** ** Strings *)

(** The double quote, a character that a string literal cannot hold here. *)
Definition dquote : string := String (ascii_of_nat 34) EmptyString.
Definition newline : string := String (ascii_of_nat 10) EmptyString.

Module Str.

(** White space and line terminators of ECMAScript, among the code units
    below 256: TAB, LF, VT, FF, CR, SP and NBSP. *)
Definition isWhiteSpace (c : ascii) : bool :=
  existsb (N.eqb (N_of_ascii c)) [9; 10; 11; 12; 13; 32; 160]%N.

Fixpoint trimStart (s : string) : string :=
  match s with
  | EmptyString => EmptyString
  | String c s' => if isWhiteSpace c then trimStart s' else s
  end.

Definition trimEnd (s : string) : string :=
  String.rev (trimStart (String.rev s)).

(** [s.trim()] *)
Definition trim (s : string) : string := trimEnd (trimStart s).

(** [s.slice(start, end)]: a negative index counts from the end, both are
    clamped to the string. *)
Definition slice (s : string) (start end_ : Z) : string :=
  let len := Z.of_nat (String.length s) in
  let from := if start <? 0 then Z.max (len + start) 0 else Z.min start len in
  let to := if end_ <? 0 then Z.max (len + end_) 0 else Z.min end_ len in
  let span := Z.max (to - from) 0 in
  substring (Z.to_nat from) (Z.to_nat span) s.

(** [arr.join(sep)] on an array of strings; an [undefined] element
    contributes the empty string. *)
Definition join (sep : string) (arr : list (option string)) : string :=
  String.concat sep (map (default EmptyString) arr).

(** A string is truthy when it is not empty. *)
Definition truthy (s : string) : bool := negb (String.eqb s EmptyString).

End Str.

(** What the program takes from outside and the embedding leaves open: the
    case table behind [String.prototype.toUpperCase], and [he.encode] of
    the he package with the options object it is called with. *)
Record he_options := { useNamedReferences : bool }.

Class Builtins := {
  toUpperCase : string -> string;
  he_encode : string -> he_options -> string
}.

(** ** Maps *)

(** A [Map<string, string>]: entries in insertion order, keys unique. *)
Module JSMap.

Abbreviation t := (list (string * string)) (only parsing).

Definition empty : t := [].

Definition has (m : t) (k : string) : bool :=
  existsb (fun e => String.eqb (fst e) k) m.

Definition get (m : t) (k : string) : option string :=
  snd <$> find (fun e => String.eqb (fst e) k) m.

(** [m.set(k, v)]: an existing key keeps its place, a new one goes last. *)
Fixpoint set (m : t) (k v : string) : t :=
  match m with
  | [] => [(k, v)]
  | e :: m' => if String.eqb (fst e) k then (k, v) :: m' else e :: set m' k v
  end.

End JSMap.

(** ** Packed metadata *)

Module FontStyle.
Definition NotSet : Z := -1.
Definition None : Z := 0.
Definition Italic : Z := 1.
Definition Bold : Z := 2.
Definition Underline : Z := 4.
End FontStyle.

Module MetadataConsts.
Definition LANGUAGEID_MASK : Z := 0xFF.
Definition TOKEN_TYPE_MASK : Z := 0x700.
Definition FONT_STYLE_MASK : Z := 0x3800.
Definition FOREGROUND_MASK : Z := 0x7FC000.
Definition BACKGROUND_MASK : Z := 0xFF800000.

Definition LANGUAGEID_OFFSET : Z := 0.
Definition TOKEN_TYPE_OFFSET : Z := 8.
Definition FONT_STYLE_OFFSET : Z := 11.
Definition FOREGROUND_OFFSET : Z := 14.
Definition BACKGROUND_OFFSET : Z := 23.
End MetadataConsts.

(** [metadata] is [None] when the caller hands over [undefined] (the last
    element of an empty packed stream). *)
Definition getFontStyle (metadata : option Z) : Z :=
  JS.ushr (JS.band (JS.ToIntegral metadata) MetadataConsts.FONT_STYLE_MASK)
          MetadataConsts.FONT_STYLE_OFFSET.

Definition getForeground (metadata : option Z) : Z :=
  JS.ushr (JS.band (JS.ToIntegral metadata) MetadataConsts.FOREGROUND_MASK)
          MetadataConsts.FOREGROUND_OFFSET.

Module DecodedTokenMeta.
Record t := {
  classNames : list string;
  bold : bool;
  italic : bool;
  underline : bool;
  foreground : Z
}.
End DecodedTokenMeta.

Definition getTokenDataFromMetadata (metadata : option Z) : DecodedTokenMeta.t :=
  let foreground := getForeground metadata in
  let fontStyle := getFontStyle metadata in
  let italic := JS.truthy (JS.band fontStyle FontStyle.Italic) in
  let bold := JS.truthy (JS.band fontStyle FontStyle.Bold) in
  let underline := JS.truthy (JS.band fontStyle FontStyle.Underline) in
  let classNames := ["mtk" +:+ JS.toString foreground] in
  let classNames := if italic then classNames ++ ["mtki"] else classNames in
  let classNames := if bold then classNames ++ ["mtkb"] else classNames in
  let classNames := if underline then classNames ++ ["mtku"] else classNames in
  {| DecodedTokenMeta.classNames := classNames;
     DecodedTokenMeta.bold := bold;
     DecodedTokenMeta.italic := italic;
     DecodedTokenMeta.underline := underline;
     DecodedTokenMeta.foreground := foreground |}.

(** ** The class names of a theme *)

Module IRawThemeSetting.
Record settings_t := { foreground : option string }.
Record t := { settings : settings_t }.
End IRawThemeSetting.

Module PublicTheme.
Record t := {
  name : string;
  colors : gmap string string;
  tokenColors : list IRawThemeSetting.t
}.
End PublicTheme.

(** The first entry of the list that [createClassNameMap] and
    [convertThemeToRawTheme] walk. *)
Definition defaultTokenColors (theme : PublicTheme.t) : IRawThemeSetting.t :=
  {| IRawThemeSetting.settings :=
       {| IRawThemeSetting.foreground :=
            Some (default "#000000" (PublicTheme.colors theme !! "editor.foreground")) |} |}.

(** The body of the [forEach] callback, on the pair of the two variables it
    updates. *)
Definition createClassNameMap_step `{Builtins}
    (st : JSMap.t * Z) (token : IRawThemeSetting.t) : JSMap.t * Z :=
  let '(colorMap, colorIndex) := st in
  match IRawThemeSetting.foreground (IRawThemeSetting.settings token) with
  | Some fg =>
      if Str.truthy fg then
        let color := toUpperCase fg in
        if negb (JSMap.has colorMap color)
        then (JSMap.set colorMap color ("mtk" +:+ JS.toString colorIndex), colorIndex + 1)
        else (colorMap, colorIndex)
      else (colorMap, colorIndex)
  | None => (colorMap, colorIndex)
  end.

Definition createClassNameMap `{Builtins} (theme : PublicTheme.t) : JSMap.t :=
  fst (fold_left createClassNameMap_step
         (defaultTokenColors theme :: PublicTheme.tokenColors theme)
         (JSMap.empty, 0)).

(** ** Looking up the packed metadata of a character position *)

Module Cmp.
(** [a <= b] and [a < b] on numbers; a comparison with [undefined] is
    false. *)
Definition le (a b : option Z) : bool :=
  match a, b with Some x, Some y => x <=? y | _, _ => false end.
Definition lt (a b : option Z) : bool :=
  match a, b with Some x, Some y => x <? y | _, _ => false end.
End Cmp.

(** [arr[arr.length - 1]]; [undefined] on the empty array. *)
Definition last_elem {A} (arr : list A) : option A :=
  match length arr with
  | O => None
  | S n => arr !! n
  end.

(** The [for] loop of [getMetaAtPosition], entered with index [i]; an
    element read past the end of the typed array is [undefined]. *)
Equations? getMetaAtPosition_from (tokens : list Z) (position : Z) (i : nat)
  : option Z by wf (length tokens - i)%nat lt :=
getMetaAtPosition_from tokens position i with decide (i < length tokens)%nat := {
  | left _ =>
      let start := tokens !! i in
      let end_ := tokens !! (i + 2)%nat in
      if Cmp.le start (Some position) && Cmp.lt (Some position) end_
      then tokens !! (i + 1)%nat
      else getMetaAtPosition_from tokens position (i + 2)%nat
  | right _ => last_elem tokens }.
Proof. lia. Qed.

Definition getMetaAtPosition (tokens : list Z) (position : Z) : option Z :=
  getMetaAtPosition_from tokens position 0.

(** ** Segments and their store *)

Module ParsedLine.
Record t := {
  start : Z;
  end_ : Z;
  classNames : list (option string)
}.

(** [segment.end = v] *)
Definition set_end (segment : t) (v : Z) : t :=
  {| start := start segment; end_ := v; classNames := classNames segment |}.
End ParsedLine.

(** Segment objects are mutated in place by the merge pass, so an array of
    segments is a list of addresses into a store. *)
Abbreviation loc := nat (only parsing).
Abbreviation store := (loc -> ParsedLine.t) (only parsing).

(** The values an array of segments holds in a store. *)
Definition read (σ : store) (segments : list loc) : list ParsedLine.t :=
  map σ segments.

(** The loop of [arraysAreEqual], entered with index [i] and [n] elements
    to go; [!==] is strict inequality of strings and [undefined]. *)
Fixpoint arraysAreEqual_from (a b : list (option string)) (i n : nat) : bool :=
  match n with
  | O => true
  | S n' =>
      if negb (bool_decide (a !! i = b !! i)) then false
      else arraysAreEqual_from a b (S i) n'
  end.

Definition arraysAreEqual (a b : list (option string)) : bool :=
  if negb (length a =? length b)%nat then false
  else arraysAreEqual_from a b 0 (length a).

(** ** The merge pass *)

Module Merge.
(** The variables the [forEach] callback of [mergeConsecutiveSegments]
    reads and writes, and the store its objects live in. *)
Record state := {
  heap : store;
  mergedSegments : list loc;
  previousSegment : option loc
}.

Definition init (σ : store) : state :=
  {| heap := σ; mergedSegments := []; previousSegment := None |}.

Definition push (st : state) (segment : loc) : state :=
  {| heap := heap st;
     mergedSegments := mergedSegments st ++ [segment];
     previousSegment := Some segment |}.

(** The test of the second branch. *)
Definition mergeable (σ : store) (previous segment : loc) : bool :=
  (ParsedLine.end_ (σ previous) =? ParsedLine.start (σ segment))
  && arraysAreEqual (ParsedLine.classNames (σ previous))
                    (ParsedLine.classNames (σ segment)).

Definition step (st : state) (segment : loc) : state :=
  match previousSegment st with
  | None => push st segment
  | Some previous =>
      if mergeable (heap st) previous segment then
        {| heap := <[previous := ParsedLine.set_end (heap st previous)
                                   (ParsedLine.end_ (heap st segment))]> (heap st);
           mergedSegments := mergedSegments st;
           previousSegment := Some previous |}
      else push st segment
  end.

Definition run (st : state) (segments : list loc) : state :=
  fold_left step segments st.
End Merge.

Definition mergeConsecutiveSegments (σ : store) (segments : list loc)
  : store * list loc :=
  let st := Merge.run (Merge.init σ) segments in
  (Merge.heap st, Merge.mergedSegments st).

(** ** Emission *)

(** The body of the [forEach] callback of [codeToHTML]. *)
Definition codeToHTML_step `{Builtins} (σ : store) (line : string)
    (highlightedLine : string) (segment : loc) : string :=
  let text := Str.slice line (ParsedLine.start (σ segment)) (ParsedLine.end_ (σ segment)) in
  if negb (String.eqb (Str.trim text) EmptyString) then
    highlightedLine +:+
      ((("<span class=" +:+ dquote +:+
          Str.join " " (ParsedLine.classNames (σ segment)) +:+ dquote +:+ ">")
        +:+ he_encode text {| useNamedReferences := true |})
       +:+ "</span>")
  else highlightedLine +:+ text.

Definition codeToHTML `{Builtins} (σ : store) (line : string) (segments : list loc)
  : store * string :=
  let '(σ', merged) := mergeConsecutiveSegments σ segments in
  (σ', fold_left (codeToHTML_step σ' line) merged EmptyString).

(** The same on segment values: each one is put in an object of its own,
    the way [highlightText] builds the array it passes. *)
Definition fresh (segments : list ParsedLine.t) : store * list loc :=
  (fun l => nth l segments {| ParsedLine.start := 0; ParsedLine.end_ := 0;
                              ParsedLine.classNames := [] |},
   seq 0 (length segments)).

Definition codeToHTML_values `{Builtins} (line : string) (segments : list ParsedLine.t)
  : string :=
  let '(σ, refs) := fresh segments in
  snd (codeToHTML σ line refs).

(** ** Grammar keys *)

Inductive GrammarKey :=
  | JAVASCRIPT | TYPESCRIPT | GO | DART | HTML | CSS | TEXT | HANDLEBARS | YAML.

(** The string each member of the enum stands for. *)
Definition GrammarKey_value (k : GrammarKey) : string :=
  match k with
  | JAVASCRIPT => "source.js"
  | TYPESCRIPT => "source.ts"
  | GO => "source.go"
  | DART => "source.dart"
  | HTML => "text.html.basic"
  | CSS => "source.css"
  | TEXT => "text.plain"
  | HANDLEBARS => "text.html.handlebars"
  | YAML => "source.yaml"
  end.

Definition grammarKeyToSyntax (k : GrammarKey) : string :=
  match k with
  | JAVASCRIPT => "JavaScript.tmLanguage.json"
  | TYPESCRIPT => "TypeScript.tmLanguage.json"
  | GO => "go.tmLanguage.json"
  | DART => "dart.tmLanguage.json"
  | HTML => "html.tmLanguage.json"
  | CSS => "css.tmLanguage.json"
  | TEXT => "text.tmLanguage.json"
  | HANDLEBARS => "Handlebars.tmLanguage.json"
  | YAML => "yaml.tmLanguage.json"
  end.

(** The own properties of the object literal [extensionToGrammarKey]. *)
Definition extensionToGrammarKey : gmap string GrammarKey :=
  list_to_map
    [("js", JAVASCRIPT); ("ts", TYPESCRIPT); ("go", GO); ("dart", DART);
     ("html", HTML); ("css", CSS); ("handlebars", HANDLEBARS); ("yaml", YAML)].

(** An object literal inherits from [Object.prototype]; these are the
    property names ECMAScript (with its Annex B) defines there. *)
Definition Object_prototype_keys : list string :=
  ["constructor"; "hasOwnProperty"; "isPrototypeOf"; "propertyIsEnumerable";
   "toLocaleString"; "toString"; "valueOf"; "__proto__";
   "__defineGetter__"; "__defineSetter__"; "__lookupGetter__"; "__lookupSetter__"].

(** What reading a property of [extensionToGrammarKey] can yield: a grammar
    key of the table, or the member of [Object.prototype] of that name. *)
Inductive table_value :=
  | OwnKey (k : GrammarKey)
  | Inherited (name : string).

(** [tag in extensionToGrammarKey]: own properties, then the prototype. *)
Definition in_extensionToGrammarKey (tag : string) : bool :=
  bool_decide (is_Some (extensionToGrammarKey !! tag))
  || bool_decide (tag ∈ Object_prototype_keys).

(** [extensionToGrammarKey[tag]] for a [tag] that is [in] the object. *)
Definition get_extensionToGrammarKey (tag : string) : table_value :=
  match extensionToGrammarKey !! tag with
  | Some k => OwnKey k
  | None => Inherited tag
  end.

(** [syntaxName]: the lines written to the console, and the value
    returned. *)
Definition syntaxName (tag : string) : list string * table_value :=
  if in_extensionToGrammarKey tag then ([], get_extensionToGrammarKey tag)
  else
    let console :=
      if negb (String.eqb tag EmptyString)
      then ["Unsupported grammar <" +:+ tag +:+ ">. Falling back to plain text"]
      else [] in
    (console, OwnKey TEXT).

(** ** The tokenizer *)

Module IToken.
Record t := { startIndex : Z; endIndex : Z; scopes : list string }.
End IToken.

(** The result of [tokenizeLine] and of [tokenizeLine2]. *)
Module ITokenizeLineResult.
Record t (T S : Type) := { tokens : T; ruleStack : S }.
Arguments tokens {T S} _.
Arguments ruleStack {T S} _.
End ITokenizeLineResult.

(** vscode-textmate, as far as the highlighter uses it.  [loadGrammar] is
    [registry.loadGrammar], [None] when its promise rejects. *)
Class Textmate := {
  StackElement : Type;
  INITIAL : StackElement;
  IGrammar : Type;
  loadGrammar : GrammarKey -> option IGrammar;
  tokenizeLine : IGrammar -> string -> StackElement -> ITokenizeLineResult.t (list IToken.t) StackElement;
  tokenizeLine2 : IGrammar -> string -> StackElement -> ITokenizeLineResult.t (list Z) StackElement
}.

(** The calls the highlighter makes to a grammar. *)
Inductive tokenizer_call `{Textmate} :=
  | Call_tokenizeLine2 (line : string) (state : StackElement)
  | Call_tokenizeLine (line : string) (state : StackElement).

(** ** The highlighter *)

(** The two fields [loadTheme] fills; [None] before it has run. The colour
    table is the array of [registry.getColorMap()], indexed by colour id; an
    id can be without colour ([undefined]), as id 0 is in vscode-textmate. *)
Record Highlighter := {
  classNameMap : option JSMap.t;
  colorMap : option (list (option string))
}.

Inductive exn :=
  | GrammarLoadFailure
  | TypeError.

(** [arr[i]] for a number [i]: [undefined] outside the array and on an
    element that is [undefined]. *)
Definition array_get {A} (arr : list (option A)) (i : Z) : option A :=
  if i <? 0 then None else mjoin (arr !! Z.to_nat i).

(** The class names [highlightText] gives the segment of one token.  Reading
    a field of the instance that is [undefined] throws. *)
Definition token_classNames (this : Highlighter) (binary_tokens : list Z)
    (token : IToken.t) : exn + list (option string) :=
  let metadata :=
    getTokenDataFromMetadata (getMetaAtPosition binary_tokens (IToken.startIndex token)) in
  match classNameMap this, colorMap this with
  | Some classNameMap, Some colorMap =>
      let classNames :=
        [array_get colorMap (DecodedTokenMeta.foreground metadata) ≫= JSMap.get classNameMap] in
      let classNames :=
        if DecodedTokenMeta.bold metadata then classNames ++ [Some "mtkb"] else classNames in
      let classNames :=
        if DecodedTokenMeta.italic metadata then classNames ++ [Some "mtki"] else classNames in
      let classNames :=
        if DecodedTokenMeta.underline metadata then classNames ++ [Some "mtku"] else classNames in
      inr classNames
  | _, _ => inl TypeError
  end.

(** The inner loop: one new segment object per token, at the next free
    address. *)
Fixpoint build_segments (this : Highlighter) (binary_tokens : list Z)
    (full : list IToken.t) (σ : store) (next : loc) (segments : list loc)
  : exn + (store * loc * list loc) :=
  match full with
  | [] => inr (σ, next, segments)
  | token :: full' =>
      match token_classNames this binary_tokens token with
      | inl e => inl e
      | inr classNames =>
          let segment :=
            {| ParsedLine.start := IToken.startIndex token;
               ParsedLine.end_ := IToken.endIndex token;
               ParsedLine.classNames := classNames |} in
          build_segments this binary_tokens full'
            (<[next := segment]> σ) (S next) (segments ++ [next])
      end
  end.

(** The outer loop, over the lines that are left. *)
Fixpoint highlight_lines `{Builtins} `{Textmate} (this : Highlighter)
    (grammar : IGrammar) (text : list string) (ruleStack : StackElement)
    (σ : store) (next : loc) (output : list string) (calls : list tokenizer_call)
  : list tokenizer_call * (exn + list string) :=
  match text with
  | [] => (calls, inr output)
  | line :: text' =>
      let binary := tokenizeLine2 grammar line ruleStack in
      let full := ITokenizeLineResult.tokens (tokenizeLine grammar line ruleStack) in
      let calls :=
        calls ++ [Call_tokenizeLine2 line ruleStack; Call_tokenizeLine line ruleStack] in
      match build_segments this (ITokenizeLineResult.tokens binary) full σ next [] with
      | inl e => (calls, inl e)
      | inr (σ, next, segments) =>
          let '(σ, html) := codeToHTML σ line segments in
          highlight_lines this grammar text' (ITokenizeLineResult.ruleStack binary)
            σ next (output ++ [html]) calls
      end
  end.

(** [highlightText], run on a heap whose objects are [σ] and whose free
    addresses start at [next]: the calls made to the grammar, and the
    exception thrown or the string returned. *)
Definition highlightText `{Builtins} `{Textmate} (this : Highlighter)
    (σ : store) (next : loc) (text : list string) (language : GrammarKey)
  : list tokenizer_call * (exn + string) :=
  match loadGrammar language with
  | None => ([], inl GrammarLoadFailure)
  | Some grammar =>
      let '(calls, r) := highlight_lines this grammar text INITIAL σ next [] [] in
      (calls,
       match r with
       | inl e => inl e
       | inr output => inr ("<pre><code>" +:+ String.concat newline output +:+ "</code></pre>")
       end)
  end.

(** ** The rest of the highlighter module *)

(** [buildCSS]: the three rules of the font styles, then one colour rule per
    entry of the map, in the order of its entries. *)
Definition buildCSS_static : string :=
  ".mtkb { font-weight: bold; }" +:+ newline
  +:+ ".mtki { font-style: italic; }" +:+ newline
  +:+ ".mtku { text-decoration: underline; }" +:+ newline.

Definition buildCSS_rule (entry : string * string) : string :=
  "." +:+ snd entry +:+ " { color: " +:+ fst entry +:+ "; }" +:+ newline.

Definition buildCSS (map : JSMap.t) : string :=
  fold_left (fun css entry => css +:+ buildCSS_rule entry) map buildCSS_static.

Module IRawTheme.
Record t := {
  name : string;
  settings : list IRawThemeSetting.t
}.
End IRawTheme.

Definition convertThemeToRawTheme (theme : PublicTheme.t) : IRawTheme.t :=
  {| IRawTheme.name := PublicTheme.name theme;
     IRawTheme.settings := defaultTokenColors theme :: PublicTheme.tokenColors theme |}.

(** The registry of vscode-textmate, as far as [loadTheme] uses it: the
    colour table it reports once a raw theme is set. *)
Class ThemeRegistry := {
  getColorMap_after_setTheme : IRawTheme.t -> list (option string)
}.

(** [Highlighter.loadTheme]. [file] is what reading and parsing the theme
    file gives, [None] when that fails: the promise rejects and the
    instance is as it was. *)
Definition Highlighter_loadTheme `{Builtins} `{ThemeRegistry}
    (file : option PublicTheme.t) (this : Highlighter) : option Highlighter :=
  match file with
  | None => None
  | Some theme =>
      Some {| classNameMap := Some (createClassNameMap theme);
              colorMap := Some (getColorMap_after_setTheme (convertThemeToRawTheme theme)) |}
  end.

(** The getter [cssMap]. *)
Definition cssMap (this : Highlighter) : option JSMap.t := classNameMap this.

(** * The helpers of the generator *)

(** ** Colours as numbers *)

Module ParseInt.

(** The value of a digit of radix 16. *)
Definition hex_digit (c : ascii) : option Z :=
  let n := Z.of_N (N_of_ascii c) in
  if (48 <=? n) && (n <=? 57) then Some (n - 48)
  else if (65 <=? n) && (n <=? 70) then Some (n - 55)
  else if (97 <=? n) && (n <=? 102) then Some (n - 87)
  else None.

(** The number that the longest prefix of digits denotes, after the digits
    already read; [None] as long as no digit was read. *)
Fixpoint digits (s : string) (read : option Z) : option Z :=
  match s with
  | EmptyString => read
  | String c s' =>
      match hex_digit c with
      | Some d => digits s' (Some (16 * default 0 read + d))
      | None => read
      end
  end.

Definition strip_sign (s : string) : Z * string :=
  match s with
  | String c s' =>
      if Ascii.eqb c "-" then (-1, s')
      else if Ascii.eqb c "+" then (1, s')
      else (1, s)
  | EmptyString => (1, s)
  end.

Definition strip_prefix (s : string) : string :=
  match s with
  | String c0 (String c1 s') =>
      if Ascii.eqb c0 "0" && (Ascii.eqb c1 "x" || Ascii.eqb c1 "X") then s' else s
  | _ => s
  end.

(** [parseInt(s, 16)]: leading white space, a sign and the prefix [0x] are
    passed over, then the longest prefix of hexadecimal digits is read;
    [NaN], here [None], when there is no digit. The number is exact here;
    the program reads two digits at most. *)
Definition parseInt16 (s : string) : option Z :=
  let '(sign, s1) := strip_sign (Str.trimStart s) in
  (fun value => sign * value) <$> digits (strip_prefix s1) None.

End ParseInt.

(** [s[i]]: the string of the one character at index [i], [undefined]
    beyond the end. *)
Definition char_at (s : string) (i : nat) : option string :=
  (fun c => String c EmptyString) <$> String.get i s.

(** The text that a template literal puts for [s[i]]. *)
Definition template_char_at (s : string) (i : nat) : string :=
  default "undefined" (char_at s i).

(** [hexToRGB]; a component that is [NaN] is [None]. *)
Definition hexToRGB (s : string) : option Z * option Z * option Z :=
  (ParseInt.parseInt16 ("0x" +:+ template_char_at s 1 +:+ template_char_at s 2),
   ParseInt.parseInt16 ("0x" +:+ template_char_at s 3 +:+ template_char_at s 4),
   ParseInt.parseInt16 ("0x" +:+ template_char_at s 5 +:+ template_char_at s 6)).

(** ** File extensions *)

(** The path module of the repository, as far as these helpers use it. *)
Class PathLib := {
  extname : string -> string
}.

(** An entry of the ignore list, with the dot that [isValidExt] puts before
    an entry that is not empty and does not begin with one. *)
Definition dotted_ignore (e : string) : string :=
  (if Str.truthy e && negb (bool_decide (char_at e 0 = Some ".")) then "." else EmptyString)
  +:+ e.

(** [isValidExt], as the truth value that [trimExt] tests. *)
Definition isValidExt (ext : string) (ignoreExts : list string) (maxSize : Z) : bool :=
  Str.truthy ext
  && (Z.of_nat (String.length ext) <=? maxSize)
  && negb (bool_decide (ext ∈ map dotted_ignore ignoreExts)).

(** [s.slice(start, end)] where [end] can be [undefined]. *)
Definition slice_to (s : string) (start : Z) (end_ : option Z) : string :=
  Str.slice s start (default (Z.of_nat (String.length s)) end_).

(** [x || undefined] on a number. *)
Definition or_undefined (x : Z) : option Z := if JS.truthy x then Some x else None.

Definition trimExt `{PathLib} (filename : string) (ignoreExts : list string)
    (maxSize : Z) : string :=
  let oldExt := extname filename in
  if isValidExt oldExt ignoreExts maxSize then
    slice_to filename 0
      (or_undefined
         ((Z.of_nat (String.length filename) - Z.of_nat (String.length oldExt) - 1) + 1))
  else filename.

Definition changeExt `{PathLib} (filename ext : string) (ignoreExts : list string)
    (maxSize : Z) : string :=
  trimExt filename ignoreExts maxSize
  +:+ (if negb (Str.truthy ext) then EmptyString
       else if bool_decide (char_at ext 0 = Some ".") then ext
       else "." +:+ ext).

(** * Vocabulary of the statements *)

(** ** The lookup and the merge pass *)

(** The [k]-th pair of a packed stream is [(tokens[2k], tokens[2k+1])]; its
    interval runs from its own offset to the offset of the next pair. *)
Definition interval_contains (tokens : list Z) (position : Z) (k : nat) : bool :=
  match tokens !! (2 * k)%nat, tokens !! (2 * k + 2)%nat with
  | Some offset, Some next_offset => (offset <=? position) && (position <? next_offset)
  | _, _ => false
  end.

(** The offsets of a packed stream never decrease. *)
Definition sorted_offsets (tokens : list Z) : Prop :=
  forall (a b : nat) (x y : Z),
    (a <= b)%nat -> tokens !! (2 * a)%nat = Some x -> tokens !! (2 * b)%nat = Some y ->
    x <= y.

(** Two class-name arrays are element-wise equal: same length, and the same
    value at every index. *)
Definition elementwise_equal (a b : list (option string)) : Prop :=
  length a = length b /\ forall i : nat, a !! i = b !! i.

(** The merge pass on values, where the accumulator is the last element of
    the list built so far. *)
Module MergeValues.
Definition mergeable (previous segment : ParsedLine.t) : bool :=
  (ParsedLine.end_ previous =? ParsedLine.start segment)
  && arraysAreEqual (ParsedLine.classNames previous) (ParsedLine.classNames segment).

Definition step (merged : list ParsedLine.t) (segment : ParsedLine.t)
  : list ParsedLine.t :=
  match last merged with
  | None => [segment]
  | Some previous =>
      if mergeable previous segment
      then removelast merged ++ [ParsedLine.set_end previous (ParsedLine.end_ segment)]
      else merged ++ [segment]
  end.

Definition run (segments : list ParsedLine.t) : list ParsedLine.t :=
  fold_left step segments [].
End MergeValues.

(** No two neighbours of a list of segment values could be merged. *)
Definition no_mergeable_neighbours (l : list ParsedLine.t) : Prop :=
  forall (i : nat) (a b : ParsedLine.t),
    l !! i = Some a -> l !! S i = Some b -> MergeValues.mergeable a b = false.

(** A segment is a character range: its bounds are offsets in order. *)
Definition is_range (segment : ParsedLine.t) : Prop :=
  0 <= ParsedLine.start segment <= ParsedLine.end_ segment.

(** The text a list of segment values covers. *)
Definition covered_text (line : string) (l : list ParsedLine.t) : string :=
  foldr String.append EmptyString
    (map (fun segment => Str.slice line (ParsedLine.start segment) (ParsedLine.end_ segment)) l).

(** What holds after the pass has gone through a prefix [pre] of an array of
    distinct objects. *)
Record run_invariant (σ : store) (pre : list loc) (st : Merge.state) : Prop := {
  inv_values :
    read (Merge.heap st) (Merge.mergedSegments st) = MergeValues.run (read σ pre);
  inv_previous : Merge.previousSegment st = last (Merge.mergedSegments st);
  inv_within : forall l, l ∈ Merge.mergedSegments st -> l ∈ pre;
  inv_nodup : NoDup (Merge.mergedSegments st);
  inv_untouched : forall l, l ∉ pre -> Merge.heap st l = σ l
}.

(** ** Emission, as the specification words it *)

(** A text is only white space; the empty text is. *)
Fixpoint whitespace_only (text : string) : bool :=
  match text with
  | EmptyString => true
  | String c text' => Str.isWhiteSpace c && whitespace_only text'
  end.

(** What the emission pass is to write for one merged segment: its text as
    it is when that is only white space, and otherwise a span whose class
    attribute is the class names joined by one space and whose content is
    the text escaped with named character references. *)
Definition emitted `{Builtins} (line : string) (segment : ParsedLine.t) : string :=
  let text := Str.slice line (ParsedLine.start segment) (ParsedLine.end_ segment) in
  if whitespace_only text then text
  else "<span class=" +:+ dquote
       +:+ Str.join " " (ParsedLine.classNames segment) +:+ dquote +:+ ">"
       +:+ he_encode text {| useNamedReferences := true |}
       +:+ "</span>".

(** The pieces of a list of segment values, end to end. *)
Definition html_of `{Builtins} (line : string) (merged : list ParsedLine.t) : string :=
  foldr String.append EmptyString (map (emitted line) merged).

(** The class attributes of the spans that [codeToHTML] emits for the
    merged segments, in the order of emission; a segment whose text is only
    white space emits no span. *)
Definition span_classes (σ : store) (line : string) (merged : list loc) : list string :=
  omap (fun segment =>
          let text := Str.slice line (ParsedLine.start (σ segment))
                                     (ParsedLine.end_ (σ segment)) in
          if negb (String.eqb (Str.trim text) EmptyString)
          then Some (Str.join " " (ParsedLine.classNames (σ segment)))
          else None) merged.

(** ** The class map, as the specification words it *)

(** The upper-cased foregrounds of the entries that have a non-empty one,
    in the order of the entries. *)
Definition uppercased_foreground `{Builtins} (token : IRawThemeSetting.t) : option string :=
  match IRawThemeSetting.foreground (IRawThemeSetting.settings token) with
  | Some fg => if Str.truthy fg then Some (toUpperCase fg) else None
  | None => None
  end.

Definition uppercased_foregrounds `{Builtins} (theme : PublicTheme.t) : list string :=
  omap uppercased_foreground (defaultTokenColors theme :: PublicTheme.tokenColors theme).

(** A list without its repetitions: of equal elements the first one stays. *)
Fixpoint first_occurrences (l : list string) : list string :=
  match l with
  | [] => []
  | x :: l' => x :: filter (fun y => y <> x) (first_occurrences l')
  end.

(** Keys numbered from 0 in their order, each with the class of its
    number. *)
Definition numbered (keys : list string) : JSMap.t :=
  imap (fun (index : nat) (key : string) => (key, "mtk" +:+ JS.toString (Z.of_nat index))) keys.

(** The colour rules of a map, end to end. *)
Definition buildCSS_rules (map : JSMap.t) : string :=
  foldr (fun entry css => buildCSS_rule entry +:+ css) EmptyString map.

(** ** Colours as numbers *)

(** The value of the character at index [i] as a hexadecimal digit, when
    there is such a character and it is one. *)
Definition hex_at (s : string) (i : nat) : option Z :=
  String.get i s ≫= ParseInt.hex_digit.

(** The number that the characters at [i] and [i + 1] denote: none when
    the first is no digit, the first digit alone when the second is none. *)
Definition two_hex_digits (s : string) (i : nat) : option Z :=
  match hex_at s i with
  | None => None
  | Some hi => Some (match hex_at s (S i) with Some lo => 16 * hi + lo | None => hi end)
  end.

(** ** Highlighting, as the specification words it *)

(** The state each line is tokenized in: the initial one for the first
    line, and for the next line the state that the packed call returned. *)
Fixpoint line_states `{Textmate} (grammar : IGrammar) (text : list string)
    (state : StackElement) : list StackElement :=
  match text with
  | [] => []
  | line :: text' =>
      state :: line_states grammar text'
                 (ITokenizeLineResult.ruleStack (tokenizeLine2 grammar line state))
  end.

(** The class names of a token's segment, with both tables of the theme at
    hand. *)
Definition class_names_of (classNameMap : JSMap.t) (colorMap : list (option string))
    (binary_tokens : list Z) (token : IToken.t) : list (option string) :=
  let metadata :=
    getTokenDataFromMetadata (getMetaAtPosition binary_tokens (IToken.startIndex token)) in
  [array_get colorMap (DecodedTokenMeta.foreground metadata) ≫= JSMap.get classNameMap]
  ++ (if DecodedTokenMeta.bold metadata then [Some "mtkb"] else [])
  ++ (if DecodedTokenMeta.italic metadata then [Some "mtki"] else [])
  ++ (if DecodedTokenMeta.underline metadata then [Some "mtku"] else []).

(** One segment per token of the line. *)
Definition line_segments `{Textmate} (classNameMap : JSMap.t) (colorMap : list (option string))
    (grammar : IGrammar) (line : string) (state : StackElement) : list ParsedLine.t :=
  let binary := tokenizeLine2 grammar line state in
  let full := ITokenizeLineResult.tokens (tokenizeLine grammar line state) in
  map (fun token =>
         {| ParsedLine.start := IToken.startIndex token;
            ParsedLine.end_ := IToken.endIndex token;
            ParsedLine.classNames :=
              class_names_of classNameMap colorMap (ITokenizeLineResult.tokens binary) token |})
      full.

(** The calls made for one line in one state: the packed call, then the
    other, both with this line and this state. *)
Definition calls_of `{Textmate} (line_state : string * StackElement) : list tokenizer_call :=
  [Call_tokenizeLine2 line_state.1 line_state.2; Call_tokenizeLine line_state.1 line_state.2].

(** The HTML of one line tokenized in one state. *)
Definition line_html `{Builtins} `{Textmate} (classNameMap : JSMap.t) (colorMap : list (option string))
    (grammar : IGrammar) (line_state : string * StackElement) : string :=
  codeToHTML_values line_state.1
    (line_segments classNameMap colorMap grammar line_state.1 line_state.2).

(** * Examples to run the embedding on *)

(** ** One instance of the open parts *)

Definition ascii_toUpperCase_char (c : ascii) : ascii :=
  let n := N_of_ascii c in
  if (97 <=? n)%N && (n <=? 122)%N then ascii_of_N (n - 32) else c.

Fixpoint string_map (f : ascii -> string) (s : string) : string :=
  match s with
  | EmptyString => EmptyString
  | String c s' => f c +:+ string_map f s'
  end.

(** Upper-casing of the letters a to z. *)
Definition ascii_toUpperCase (s : string) : string :=
  string_map (fun c => String (ascii_toUpperCase_char c) EmptyString) s.

(** The six characters that [he.encode] escapes in printable ASCII text: by
    name with [useNamedReferences], by code point without. *)
Definition he_escape_char (named : bool) (c : ascii) : string :=
  let n := N_of_ascii c in
  if (n =? 34)%N then (if named then "&quot;" else "&#x22;")
  else if (n =? 38)%N then (if named then "&amp;" else "&#x26;")
  else if (n =? 39)%N then (if named then "&apos;" else "&#x27;")
  else if (n =? 60)%N then (if named then "&lt;" else "&#x3C;")
  else if (n =? 62)%N then (if named then "&gt;" else "&#x3E;")
  else if (n =? 96)%N then (if named then "&grave;" else "&#x60;")
  else String c EmptyString.

Definition ascii_builtins : Builtins :=
  {| toUpperCase := ascii_toUpperCase;
     he_encode := fun text options =>
       string_map (he_escape_char (useNamedReferences options)) text |}.

(** A segment value. *)
Definition segment_of (start end_ : Z) (classNames : list string) : ParsedLine.t :=
  {| ParsedLine.start := start; ParsedLine.end_ := end_;
     ParsedLine.classNames := map Some classNames |}.

(** ** A theme *)

(** A theme entry with the given foreground. *)
Definition setting_of (foreground : option string) : IRawThemeSetting.t :=
  {| IRawThemeSetting.settings := {| IRawThemeSetting.foreground := foreground |} |}.

(** A small theme: no [editor.foreground] but other colours, one colour in
    two spellings, an entry without foreground and one with an empty one. *)
Definition example_theme : PublicTheme.t :=
  {| PublicTheme.name := "example";
     PublicTheme.colors := {[ "editor.background" := "#282c34" ]};
     PublicTheme.tokenColors :=
       [setting_of (Some "#e06c75"); setting_of None; setting_of (Some "#E06C75");
        setting_of (Some EmptyString); setting_of (Some "#000000");
        setting_of (Some "#98c379")] |}.

(** ** A tokenizer and a highlighter *)

(** Every line is one token, and its packed stream is the one pair of
    offset 0 and [metadata]; the packed call counts the lines in its state,
    the other call returns a state that is never used. *)
Definition example_textmate (metadata : Z) : Textmate :=
  {| StackElement := nat;
     INITIAL := 0%nat;
     IGrammar := unit;
     loadGrammar := fun _ => Some tt;
     tokenizeLine := fun _ line state =>
       {| ITokenizeLineResult.tokens :=
            [{| IToken.startIndex := 0;
                IToken.endIndex := Z.of_nat (String.length line);
                IToken.scopes := ["source"] |}];
          ITokenizeLineResult.ruleStack := (state + 100)%nat |};
     tokenizeLine2 := fun _ line state =>
       {| ITokenizeLineResult.tokens := [0; metadata];
          ITokenizeLineResult.ruleStack := S state |} |}.

(** The same, but for an empty line neither call reports a token. *)
Definition example_textmate_blank (metadata : Z) : Textmate :=
  {| StackElement := nat;
     INITIAL := 0%nat;
     IGrammar := unit;
     loadGrammar := fun _ => Some tt;
     tokenizeLine := fun _ line state =>
       {| ITokenizeLineResult.tokens :=
            if String.eqb line EmptyString then []
            else [{| IToken.startIndex := 0;
                     IToken.endIndex := Z.of_nat (String.length line);
                     IToken.scopes := ["source"] |}];
          ITokenizeLineResult.ruleStack := (state + 100)%nat |};
     tokenizeLine2 := fun _ line state =>
       {| ITokenizeLineResult.tokens :=
            if String.eqb line EmptyString then [] else [0; metadata];
          ITokenizeLineResult.ruleStack := S state |} |}.

(** A highlighter whose theme was never loaded. *)
Definition example_highlighter_unloaded : Highlighter :=
  {| classNameMap := None; colorMap := None |}.

(** Packed metadata: foreground 1 and the bold flag; foreground 5 and no
    flag. *)
Definition metadata_fg1_bold : Z := 1 * 2 ^ 14 + 2 * 2 ^ 11.
Definition metadata_fg5 : Z := 5 * 2 ^ 14.

(** A loaded highlighter whose colour table has the one colour id 1. *)
Definition example_highlighter : Highlighter :=
  {| classNameMap := Some [("#000000", "mtk0")];
     colorMap := Some [None; Some "#000000"] |}.

(** A registry whose colour table leaves id 0 empty and then lists the
    foregrounds of the settings in upper case, one id per setting. *)
Definition example_registry : ThemeRegistry :=
  {| getColorMap_after_setTheme := fun raw =>
       None :: map (fun token =>
                      ascii_toUpperCase
                        <$> IRawThemeSetting.foreground (IRawThemeSetting.settings token))
                   (IRawTheme.settings raw) |}.

(** An [extname] for file names without directories: the part from the
    last dot on, that dot not being the first character. *)
Fixpoint last_dot_suffix (s : string) : option string :=
  match s with
  | EmptyString => None
  | String c s' =>
      match last_dot_suffix s' with
      | Some e => Some e
      | None => if Ascii.eqb c "." then Some s else None
      end
  end.

Definition example_pathlib : PathLib :=
  {| extname := fun filename =>
       match filename with
       | EmptyString => EmptyString
       | String _ rest => default EmptyString (last_dot_suffix rest)
       end |}.

(** A store, for a call that starts from nothing. *)
Definition empty_store : store :=
  fun _ => {| ParsedLine.start := 0; ParsedLine.end_ := 0; ParsedLine.classNames := [] |}.

(** * Properties *)

(** ** The 32-bit operators on the masks of the metadata *)

Lemma ToInt32_mod (x : Z) : JS.ToInt32 x mod 2 ^ 32 = x mod 2 ^ 32.
Proof.
  unfold JS.ToInt32.
  rewrite Zminus_mod, Zmod_mod, <- Zminus_mod.
  f_equal. lia.
Qed.

Lemma land_mod32 (x mask : Z) :
  0 <= mask < 2 ^ 32 -> Z.land (x mod 2 ^ 32) mask = Z.land x mask.
Proof.
  intros Hmask.
  rewrite <- (Z.land_ones x 32) by lia.
  rewrite <- Z.land_assoc. f_equal.
  rewrite Z.land_comm, Z.land_ones by lia.
  apply Z.mod_small. exact Hmask.
Qed.

Lemma ToInt32_small (x : Z) : - 2 ^ 31 <= x < 2 ^ 31 -> JS.ToInt32 x = x.
Proof.
  intros Hx. unfold JS.ToInt32.
  rewrite Z.mod_small by lia. lia.
Qed.

Lemma band_mask (x mask : Z) :
  0 <= mask < 2 ^ 31 -> JS.band x mask = Z.land x mask.
Proof.
  intros Hmask. unfold JS.band.
  rewrite (ToInt32_small mask) by lia.
  rewrite <- (land_mod32 (JS.ToInt32 x)), ToInt32_mod by lia.
  apply land_mod32. lia.
Qed.

Lemma land_mask_bounds (x mask : Z) :
  0 <= mask < 2 ^ 32 -> 0 <= Z.land x mask <= mask.
Proof.
  intros Hmask. split.
  - apply Z.land_nonneg. right. lia.
  - rewrite <- land_mod32 by lia.
    destruct (Z.eq_dec mask 0) as [->|Hne].
    + rewrite Z.land_0_r. lia.
    + assert (0 <= x mod 2 ^ 32) by (apply Z.mod_pos_bound; lia).
      rewrite Z.land_comm.
      pose proof (Z.land_nonneg mask (x mod 2 ^ 32)) as Hnn.
      pose proof (Z.sub_nocarry_ldiff mask (Z.land mask (x mod 2 ^ 32))) as Hsub.
      assert (Hld : Z.ldiff (Z.land mask (x mod 2 ^ 32)) mask = 0).
      { apply Z.bits_inj'. intros n Hn.
        rewrite Z.ldiff_spec, Z.land_spec, Z.bits_0.
        destruct (Z.testbit mask n), (Z.testbit (x mod 2 ^ 32) n); reflexivity. }
      specialize (Hsub Hld).
      assert (0 <= Z.ldiff mask (Z.land mask (x mod 2 ^ 32))).
      { apply Z.ldiff_nonneg. left. lia. }
      lia.
Qed.

Lemma ushr_small (a n : Z) :
  0 <= a < 2 ^ 32 -> 0 <= n < 32 -> JS.ushr a n = Z.shiftr a n.
Proof.
  intros Ha Hn. unfold JS.ushr, JS.ToUint32.
  rewrite (Z.mod_small a), (Z.mod_small n) by lia.
  f_equal. change 31 with (Z.ones 5).
  rewrite Z.land_ones by lia. apply Z.mod_small.
  change (2 ^ 5) with 32. lia.
Qed.

Lemma getForeground_eq (m : Z) :
  getForeground (Some m) = Z.shiftr (Z.land m 0x7FC000) 14.
Proof.
  unfold getForeground, JS.ToIntegral, MetadataConsts.FOREGROUND_MASK,
    MetadataConsts.FOREGROUND_OFFSET. simpl default.
  rewrite band_mask by lia.
  pose proof (land_mask_bounds m 0x7FC000 ltac:(lia)).
  apply ushr_small; lia.
Qed.

Lemma getFontStyle_eq (m : Z) :
  getFontStyle (Some m) = Z.shiftr (Z.land m 0x3800) 11.
Proof.
  unfold getFontStyle, JS.ToIntegral, MetadataConsts.FONT_STYLE_MASK,
    MetadataConsts.FONT_STYLE_OFFSET. simpl default.
  rewrite band_mask by lia.
  pose proof (land_mask_bounds m 0x3800 ltac:(lia)).
  apply ushr_small; lia.
Qed.

Lemma getForeground_bounds (m : Z) : 0 <= getForeground (Some m) <= 511.
Proof.
  rewrite getForeground_eq.
  pose proof (land_mask_bounds m 0x7FC000 ltac:(lia)) as Hb.
  rewrite Z.shiftr_div_pow2 by lia.
  change (2 ^ 14) with 16384. split.
  - apply Z.div_pos; lia.
  - apply Z.div_le_upper_bound; lia.
Qed.

Lemma getFontStyle_bounds (m : Z) : 0 <= getFontStyle (Some m) <= 7.
Proof.
  rewrite getFontStyle_eq.
  pose proof (land_mask_bounds m 0x3800 ltac:(lia)) as Hb.
  rewrite Z.shiftr_div_pow2 by lia.
  change (2 ^ 11) with 2048. split.
  - apply Z.div_pos; lia.
  - apply Z.div_le_upper_bound; lia.
Qed.

(** A flag test [!!(fontStyle & flag)] reads one bit of a 3-bit field. *)
Lemma flag_testbit (fs : Z) :
  0 <= fs <= 7 ->
  JS.truthy (JS.band fs FontStyle.Italic) = Z.testbit fs 0
  /\ JS.truthy (JS.band fs FontStyle.Bold) = Z.testbit fs 1
  /\ JS.truthy (JS.band fs FontStyle.Underline) = Z.testbit fs 2.
Proof.
  intros Hfs.
  assert (Hcases : fs = 0 \/ fs = 1 \/ fs = 2 \/ fs = 3 \/ fs = 4 \/ fs = 5
                   \/ fs = 6 \/ fs = 7) by lia.
  repeat (destruct Hcases as [-> | Hcases]); try subst fs;
    repeat split; reflexivity.
Qed.

(** C2. For every integer [m] that a 32-bit word can hold (and beyond),
    decoding yields the foreground field [(m & 0x7FC000) >>> 14], a value
    between 0 and 511 that is right at both ends of the range; the font style
    field is [(m & 0x3800) >>> 11], whose bit 0 is [italic], bit 1 [bold] and
    bit 2 [underline]; and the class names are ["mtk" + foreground], then
    ["mtki"], ["mtkb"], ["mtku"] for the flags that are set, in this order. *)
Theorem getTokenDataFromMetadata_spec (m : Z) :
  let d := getTokenDataFromMetadata (Some m) in
  let fontStyle := Z.shiftr (Z.land m 0x3800) 11 in
  DecodedTokenMeta.foreground d = Z.shiftr (Z.land m 0x7FC000) 14
  /\ 0 <= DecodedTokenMeta.foreground d <= 511
  /\ DecodedTokenMeta.foreground (getTokenDataFromMetadata (Some 0)) = 0
  /\ DecodedTokenMeta.foreground (getTokenDataFromMetadata (Some 0x7FC000)) = 511
  /\ DecodedTokenMeta.foreground (getTokenDataFromMetadata (Some 0xFFFFFFFF)) = 511
  /\ DecodedTokenMeta.italic d = Z.testbit fontStyle 0
  /\ DecodedTokenMeta.bold d = Z.testbit fontStyle 1
  /\ DecodedTokenMeta.underline d = Z.testbit fontStyle 2
  /\ DecodedTokenMeta.classNames d =
       ["mtk" +:+ JS.toString (DecodedTokenMeta.foreground d)]
       ++ (if DecodedTokenMeta.italic d then ["mtki"] else [])
       ++ (if DecodedTokenMeta.bold d then ["mtkb"] else [])
       ++ (if DecodedTokenMeta.underline d then ["mtku"] else []).
Proof.
  intros d fontStyle.
  pose proof (flag_testbit _ (getFontStyle_bounds m)) as (Hi & Hb & Hu).
  assert (Hfs : fontStyle = getFontStyle (Some m))
    by (symmetry; apply getFontStyle_eq).
  rewrite Hfs.
  assert (Hfg : DecodedTokenMeta.foreground d = getForeground (Some m)) by reflexivity.
  split; [rewrite Hfg; apply getForeground_eq|].
  split; [rewrite Hfg; apply getForeground_bounds|].
  do 3 (split; [reflexivity|]).
  split; [exact Hi|]. split; [exact Hb|]. split; [exact Hu|].
  subst d. unfold getTokenDataFromMetadata. cbn [DecodedTokenMeta.classNames
    DecodedTokenMeta.italic DecodedTokenMeta.bold DecodedTokenMeta.underline
    DecodedTokenMeta.foreground].
  destruct (JS.truthy (JS.band (getFontStyle (Some m)) FontStyle.Italic));
    destruct (JS.truthy (JS.band (getFontStyle (Some m)) FontStyle.Bold));
    destruct (JS.truthy (JS.band (getFontStyle (Some m)) FontStyle.Underline));
    reflexivity.
Qed.

(** ** The lookup in the packed stream *)

Lemma getMetaAtPosition_from_body (tokens : list Z) (position : Z) (i : nat) :
  getMetaAtPosition_from tokens position i =
  if decide (i < length tokens)%nat then
    if Cmp.le (tokens !! i) (Some position) && Cmp.lt (Some position) (tokens !! (i + 2)%nat)
    then tokens !! (i + 1)%nat
    else getMetaAtPosition_from tokens position (i + 2)%nat
  else last_elem tokens.
Proof.
  rewrite getMetaAtPosition_from_equation_1.
  destruct (decide (i < length tokens)%nat); reflexivity.
Qed.

Lemma loop_test_interval (tokens : list Z) (position : Z) (j : nat) :
  Cmp.le (tokens !! (2 * j)%nat) (Some position)
    && Cmp.lt (Some position) (tokens !! (2 * j + 2)%nat)
  = interval_contains tokens position j.
Proof.
  unfold interval_contains, Cmp.le, Cmp.lt.
  destruct (tokens !! (2 * j)%nat), (tokens !! (2 * j + 2)%nat);
    rewrite ?andb_false_r; reflexivity.
Qed.

(** The loop entered at pair [j] returns the metadata of the first pair
    from [j] on whose interval holds the position, and the last element of
    the stream when there is none. *)
Lemma getMetaAtPosition_from_search (tokens : list Z) (position : Z) :
  forall (n j : nat), (length tokens - 2 * j <= n)%nat ->
    (forall k, (j <= k)%nat -> interval_contains tokens position k = true ->
       (forall k', (j <= k' < k)%nat -> interval_contains tokens position k' = false) ->
       getMetaAtPosition_from tokens position (2 * j) = tokens !! (2 * k + 1)%nat)
    /\ ((forall k, (j <= k)%nat -> interval_contains tokens position k = false) ->
        getMetaAtPosition_from tokens position (2 * j) = last_elem tokens).
Proof.
  induction n as [|n IH]; intros j Hn.
  - split.
    + intros k Hjk Hk _. exfalso.
      unfold interval_contains in Hk.
      destruct (tokens !! (2 * k)%nat) eqn:Hlk; [|discriminate].
      apply lookup_lt_Some in Hlk. lia.
    + intros _. rewrite getMetaAtPosition_from_body.
      destruct (decide (2 * j < length tokens)%nat); [lia|reflexivity].
  - rewrite getMetaAtPosition_from_body.
    destruct (decide (2 * j < length tokens)%nat) as [Hlt|Hge].
    + rewrite loop_test_interval.
      replace (2 * j + 2)%nat with (2 * S j)%nat by lia.
      destruct (IH (S j) ltac:(lia)) as [IHa IHb].
      destruct (interval_contains tokens position j) eqn:Hj.
      * split.
        -- intros k Hjk Hk Hfirst.
           destruct (decide (k = j)) as [->|Hne]; [reflexivity|].
           rewrite (Hfirst j) in Hj by lia. discriminate.
        -- intros Hnone. rewrite (Hnone j) in Hj by lia. discriminate.
      * split.
        -- intros k Hjk Hk Hfirst.
           assert (k <> j) by (intros ->; congruence).
           apply IHa; [lia|exact Hk|].
           intros k' Hk'. apply Hfirst. lia.
        -- intros Hnone. apply IHb. intros k Hk. apply Hnone. lia.
    + split.
      * intros k Hjk Hk _. exfalso.
        unfold interval_contains in Hk.
        destruct (tokens !! (2 * k)%nat) eqn:Hlk; [|discriminate].
        apply lookup_lt_Some in Hlk. lia.
      * intros _. reflexivity.
Qed.

Lemma sorted_offsets_disjoint (tokens : list Z) (position : Z) (k k' : nat) :
  sorted_offsets tokens -> (k' < k)%nat ->
  interval_contains tokens position k = true ->
  interval_contains tokens position k' = false.
Proof.
  intros Hsorted Hlt Hk.
  destruct (interval_contains tokens position k') eqn:Hk'; [exfalso|reflexivity].
  unfold interval_contains in Hk, Hk'.
  destruct (tokens !! (2 * k)%nat) as [o|] eqn:Ho; [|discriminate].
  destruct (tokens !! (2 * k + 2)%nat) as [e|]; [|discriminate].
  destruct (tokens !! (2 * k')%nat) as [o'|]; [|discriminate].
  destruct (tokens !! (2 * k' + 2)%nat) as [e'|] eqn:He'; [|discriminate].
  replace (2 * k' + 2)%nat with (2 * S k')%nat in He' by lia.
  pose proof (Hsorted (S k') k e' o ltac:(lia) He' Ho).
  lia.
Qed.

Lemma last_elem_pairs {A} (tokens : list A) (n : nat) :
  length tokens = (2 * n + 2)%nat -> last_elem tokens = tokens !! (2 * n + 1)%nat.
Proof.
  intros Hlen. unfold last_elem. rewrite Hlen.
  replace (2 * n + 2)%nat with (S (2 * n + 1)) by lia. reflexivity.
Qed.

(** C3. For every packed stream and every position: the lookup returns the
    metadata of the pair whose interval, from its offset to the next pair's
    offset, holds the position (the first such pair; with offsets in order
    there is at most one), and the last element of the stream when no
    interval holds the position, which is the case of every position at or
    beyond the last recorded offset. The last element of an empty stream is
    [undefined]; for a stream of [n + 1] pairs it is the metadata of the
    last pair. *)
Theorem getMetaAtPosition_spec (tokens : list Z) (position : Z) :
  (forall k, interval_contains tokens position k = true ->
     (forall k', (k' < k)%nat -> interval_contains tokens position k' = false) ->
     getMetaAtPosition tokens position = tokens !! (2 * k + 1)%nat)
  /\ (sorted_offsets tokens ->
      forall k, interval_contains tokens position k = true ->
      getMetaAtPosition tokens position = tokens !! (2 * k + 1)%nat)
  /\ ((forall k, interval_contains tokens position k = false) ->
      getMetaAtPosition tokens position = last_elem tokens)
  /\ (sorted_offsets tokens ->
      forall n last_offset, length tokens = (2 * n + 2)%nat ->
      tokens !! (2 * n)%nat = Some last_offset -> last_offset <= position ->
      getMetaAtPosition tokens position = tokens !! (2 * n + 1)%nat)
  /\ (tokens = [] -> getMetaAtPosition tokens position = None).
Proof.
  destruct (getMetaAtPosition_from_search tokens position (length tokens) 0
              ltac:(lia)) as [Hfirst Hnone].
  change (getMetaAtPosition_from tokens position (2 * 0))
    with (getMetaAtPosition tokens position) in Hfirst, Hnone.
  assert (Hnone' : (forall k, interval_contains tokens position k = false) ->
                   getMetaAtPosition tokens position = last_elem tokens).
  { intros H. apply Hnone. intros k _. apply H. }
  split; [|split; [|split; [exact Hnone'|split]]].
  - intros k Hk Hbefore. apply Hfirst; [lia|exact Hk|].
    intros k' Hk'. apply Hbefore. lia.
  - intros Hsorted k Hk. apply Hfirst; [lia|exact Hk|].
    intros k' Hk'. apply (sorted_offsets_disjoint tokens position k k'); [assumption|lia|assumption].
  - intros Hsorted n last_offset Hlen Hlast Hle.
    rewrite <- (last_elem_pairs tokens n Hlen). apply Hnone'.
    intros k. destruct (interval_contains tokens position k) eqn:Hk; [exfalso|reflexivity].
    unfold interval_contains in Hk.
    destruct (tokens !! (2 * k)%nat) as [o|]; [|discriminate].
    destruct (tokens !! (2 * k + 2)%nat) as [e|] eqn:He; [|discriminate].
    pose proof (lookup_lt_Some _ _ _ He) as Hlt.
    replace (2 * k + 2)%nat with (2 * S k)%nat in He by lia.
    pose proof (Hsorted (S k) n e last_offset ltac:(lia) He Hlast).
    lia.
  - intros ->. reflexivity.
Qed.

Lemma getMetaAtPosition_spec_witness :
  getMetaAtPosition [0; 11; 5; 22; 9; 33] 6 = Some 22
  /\ getMetaAtPosition [0; 11; 5; 22; 9; 33] 40 = Some 33.
Proof.
  split.
  - apply (proj1 (getMetaAtPosition_spec [0; 11; 5; 22; 9; 33] 6) 1%nat).
    + reflexivity.
    + intros k' Hk'. assert (k' = 0%nat) as -> by lia. reflexivity.
  - apply (proj1 (proj2 (proj2 (proj2 (getMetaAtPosition_spec [0; 11; 5; 22; 9; 33] 40))))
             ) with (n := 2%nat) (last_offset := 9).
    + intros a b x y Hab Ha Hb.
      assert (Hb3 : (b < 3)%nat) by (apply lookup_lt_Some in Hb; simpl in Hb; lia).
      assert (Hcases : (a = 0 \/ a = 1 \/ a = 2)%nat) by lia.
      assert (Hcases' : (b = 0 \/ b = 1 \/ b = 2)%nat) by lia.
      destruct Hcases as [-> | [-> | ->]]; destruct Hcases' as [-> | [-> | ->]];
        simpl in Ha, Hb; inversion Ha; inversion Hb; lia.
    + reflexivity.
    + reflexivity.
    + lia.
Defined.

(** ** Equality of class-name arrays *)

Lemma arraysAreEqual_from_true (a b : list (option string)) (n i : nat) :
  arraysAreEqual_from a b i n = true <->
  forall k, (i <= k < i + n)%nat -> a !! k = b !! k.
Proof.
  revert i. induction n as [|n IH]; intros i; simpl.
  - split; [intros _ k Hk; lia|reflexivity].
  - destruct (bool_decide (a !! i = b !! i)) eqn:Hd; simpl.
    + apply bool_decide_eq_true in Hd. rewrite IH. split.
      * intros H k Hk. destruct (decide (k = i)) as [->|Hne]; [exact Hd|].
        apply H. lia.
      * intros H k Hk. apply H. lia.
    + apply bool_decide_eq_false in Hd. split; [discriminate|].
      intros H. exfalso. apply Hd, H. lia.
Qed.

Lemma arraysAreEqual_elementwise (a b : list (option string)) :
  arraysAreEqual a b = true <-> elementwise_equal a b.
Proof.
  unfold arraysAreEqual, elementwise_equal.
  destruct (length a =? length b)%nat eqn:Hlen; simpl.
  - apply Nat.eqb_eq in Hlen. rewrite arraysAreEqual_from_true. split.
    + intros H. split; [exact Hlen|]. intros i.
      destruct (decide (i < length a)%nat) as [Hlt|Hge]; [apply H; lia|].
      rewrite !lookup_ge_None_2 by lia. reflexivity.
    + intros [_ H] k _. apply H.
  - apply Nat.eqb_neq in Hlen. split; [discriminate|]. intros [H _]. contradiction.
Qed.

Lemma elementwise_equal_eq (a b : list (option string)) :
  elementwise_equal a b <-> a = b.
Proof.
  split.
  - intros [_ H]. apply list_eq. exact H.
  - intros ->. split; reflexivity.
Qed.

Lemma arraysAreEqual_eq (a b : list (option string)) :
  arraysAreEqual a b = true <-> a = b.
Proof. rewrite arraysAreEqual_elementwise. apply elementwise_equal_eq. Qed.

Lemma mergeable_values (σ : store) (previous segment : loc) :
  Merge.mergeable σ previous segment = MergeValues.mergeable (σ previous) (σ segment).
Proof. reflexivity. Qed.

Lemma mergeable_true (σ : store) (previous segment : loc) :
  Merge.mergeable σ previous segment = true <->
  ParsedLine.end_ (σ previous) = ParsedLine.start (σ segment)
  /\ elementwise_equal (ParsedLine.classNames (σ previous))
                       (ParsedLine.classNames (σ segment)).
Proof.
  unfold Merge.mergeable.
  rewrite andb_true_iff, Z.eqb_eq, arraysAreEqual_elementwise. reflexivity.
Qed.

(** ** One step of the merge pass *)

Lemma run_snoc (st : Merge.state) (pre : list loc) (segment : loc) :
  Merge.run st (pre ++ [segment]) = Merge.step (Merge.run st pre) segment.
Proof. unfold Merge.run. rewrite fold_left_app. reflexivity. Qed.

Lemma run_app (st : Merge.state) (pre post : list loc) :
  Merge.run st (pre ++ post) = Merge.run (Merge.run st pre) post.
Proof. unfold Merge.run. apply fold_left_app. Qed.

(** The accumulator is the last segment pushed. *)
Lemma previousSegment_last (σ : store) (pre : list loc) :
  Merge.previousSegment (Merge.run (Merge.init σ) pre)
  = last (Merge.mergedSegments (Merge.run (Merge.init σ) pre)).
Proof.
  induction pre as [|segment pre IH] using rev_ind; [reflexivity|].
  rewrite run_snoc. unfold Merge.step.
  destruct (Merge.previousSegment (Merge.run (Merge.init σ) pre)) as [previous|] eqn:Hprev.
  - destruct (Merge.mergeable _ previous segment); simpl.
    + rewrite <- IH. reflexivity.
    + rewrite last_snoc. reflexivity.
  - simpl. rewrite last_snoc. reflexivity.
Qed.

Lemma previousSegment_None (σ : store) (pre : list loc) :
  Merge.previousSegment (Merge.run (Merge.init σ) pre) = None -> pre = [].
Proof.
  destruct pre as [|segment pre _] using rev_ind; [reflexivity|].
  rewrite run_snoc. unfold Merge.step.
  destruct (Merge.previousSegment (Merge.run (Merge.init σ) pre)) as [previous|].
  - destruct (Merge.mergeable _ previous segment); discriminate.
  - discriminate.
Qed.

(** C4. For every array of segments and every segment [segment] of it, with
    [pre] the segments before it: the accumulator is the last segment pushed
    so far; when there is none, [segment] is the first one and is pushed;
    otherwise [segment] is merged into the accumulator if and only if the
    accumulator's [end] equals its [start] and the two [classNames] arrays
    are element-wise equal. A merge sets the accumulator's [end] to that of
    [segment] and changes neither its [start], nor its [classNames], nor any
    other object, nor the array built so far; without a merge, [segment] is
    pushed and becomes the accumulator. *)
Theorem mergeConsecutiveSegments_step_spec
    (σ : store) (pre : list loc) (segment : loc) (post : list loc) :
  let st := Merge.run (Merge.init σ) pre in
  let st' := Merge.run (Merge.init σ) (pre ++ [segment]) in
  mergeConsecutiveSegments σ (pre ++ segment :: post)
  = (Merge.heap (Merge.run st' post), Merge.mergedSegments (Merge.run st' post))
  /\ Merge.previousSegment st = last (Merge.mergedSegments st)
  /\ match Merge.previousSegment st with
     | None => pre = [] /\ st' = Merge.push st segment
     | Some accumulator =>
         let condition :=
           ParsedLine.end_ (Merge.heap st accumulator)
             = ParsedLine.start (Merge.heap st segment)
           /\ elementwise_equal
                (ParsedLine.classNames (Merge.heap st accumulator))
                (ParsedLine.classNames (Merge.heap st segment)) in
         (condition <-> Merge.mergedSegments st' = Merge.mergedSegments st)
         /\ (condition ->
             Merge.previousSegment st' = Some accumulator
             /\ ParsedLine.end_ (Merge.heap st' accumulator)
                = ParsedLine.end_ (Merge.heap st segment)
             /\ ParsedLine.start (Merge.heap st' accumulator)
                = ParsedLine.start (Merge.heap st accumulator)
             /\ ParsedLine.classNames (Merge.heap st' accumulator)
                = ParsedLine.classNames (Merge.heap st accumulator)
             /\ forall l : loc, l <> accumulator -> Merge.heap st' l = Merge.heap st l)
         /\ (~ condition -> st' = Merge.push st segment)
     end.
Proof.
  intros st st'.
  assert (Hst' : st' = Merge.step st segment) by apply run_snoc.
  split.
  { unfold mergeConsecutiveSegments.
    replace (pre ++ segment :: post) with ((pre ++ [segment]) ++ post)
      by (rewrite <- app_assoc; reflexivity).
    rewrite run_app. reflexivity. }
  split; [apply previousSegment_last|].
  destruct (Merge.previousSegment st) as [accumulator|] eqn:Hprev.
  - intros condition.
    assert (Hcond : Merge.mergeable (Merge.heap st) accumulator segment = true <-> condition)
      by apply mergeable_true.
    unfold Merge.step in Hst'. rewrite Hprev in Hst'.
    destruct (Merge.mergeable (Merge.heap st) accumulator segment) eqn:Hm.
    + assert (Hc : condition) by (apply Hcond; reflexivity).
      rewrite Hst'.
      cbn [Merge.heap Merge.mergedSegments Merge.previousSegment].
      split; [split; [reflexivity|intros _; exact Hc]|].
      split; [|intros Hn; contradiction].
      intros _. split; [reflexivity|].
      rewrite fn_lookup_insert.
      repeat (split; [reflexivity|]).
      intros l Hl. apply fn_lookup_insert_ne. congruence.
    + assert (Hc : ~ condition) by (intros Hc; apply Hcond in Hc; discriminate).
      rewrite Hst'.
      split; [|split; [intros Hy; contradiction|reflexivity]].
      split; [intros Hy; contradiction|].
      cbn [Merge.push Merge.mergedSegments]. intros Heq. exfalso.
      apply (f_equal length) in Heq. rewrite length_app in Heq. simpl in Heq. lia.
  - split; [exact (previousSegment_None σ pre Hprev)|].
    rewrite Hst'. unfold Merge.step. rewrite Hprev. reflexivity.
Qed.

Lemma mergeConsecutiveSegments_step_spec_witness :
  let σ : store := fun l =>
    {| ParsedLine.start := Z.of_nat l; ParsedLine.end_ := Z.of_nat l + 1;
       ParsedLine.classNames := [Some "mtk1"] |} in
  let st' := Merge.run (Merge.init σ) [0%nat; 1%nat] in
  Merge.previousSegment st' = Some 0%nat
  /\ ParsedLine.end_ (Merge.heap st' 0%nat) = 2.
Proof.
  intros σ st'.
  pose proof (mergeConsecutiveSegments_step_spec σ [0%nat] 1%nat []) as (_ & _ & H).
  simpl in H. destruct H as (_ & H & _).
  assert (Hc : 0 + 1 = 1 /\ elementwise_equal [Some "mtk1"] [Some "mtk1"])
    by (split; [reflexivity|split; reflexivity]).
  destruct (H Hc) as (Hp & He & _).
  split; [exact Hp|exact He].
Defined.

(** ** The merge pass on distinct objects, seen on values *)

Lemma read_app (σ : store) (l1 l2 : list loc) :
  read σ (l1 ++ l2) = read σ l1 ++ read σ l2.
Proof. apply map_app. Qed.

Lemma read_insert_notin (σ : store) (l : list loc) (a : loc) (v : ParsedLine.t) :
  a ∉ l -> read (<[a := v]> σ) l = read σ l.
Proof.
  intros Hnotin. unfold read. apply map_ext_in. intros x Hx.
  apply fn_lookup_insert_ne. intros ->. apply Hnotin, list_elem_of_In, Hx.
Qed.

Lemma last_Some_snoc {A} (l : list A) (x : A) :
  last l = Some x -> l = removelast l ++ [x].
Proof.
  destruct l as [|y l _] using rev_ind; [discriminate|].
  rewrite last_snoc. intros [= ->]. rewrite removelast_last. reflexivity.
Qed.

Lemma run_invariant_init (σ : store) : run_invariant σ [] (Merge.init σ).
Proof.
  constructor; simpl; try reflexivity.
  - intros l Hl. exact Hl.
  - constructor.
Qed.

Lemma run_invariant_step (σ : store) (pre : list loc) (segment : loc) (st : Merge.state) :
  segment ∉ pre ->
  run_invariant σ pre st ->
  run_invariant σ (pre ++ [segment]) (Merge.step st segment).
Proof.
  intros Hfresh [Hvalues Hprevious Hwithin Hnodup Huntouched].
  assert (Hseg : Merge.heap st segment = σ segment) by (apply Huntouched, Hfresh).
  assert (Hnotmerged : segment ∉ Merge.mergedSegments st)
    by (intros Hin; apply Hfresh, Hwithin, Hin).
  assert (Hrun : MergeValues.run (read σ (pre ++ [segment]))
                 = MergeValues.step (MergeValues.run (read σ pre)) (σ segment)).
  { unfold MergeValues.run. rewrite read_app, fold_left_app. reflexivity. }
  assert (Hpushed :
    MergeValues.step (MergeValues.run (read σ pre)) (σ segment)
      = MergeValues.run (read σ pre) ++ [σ segment] ->
    run_invariant σ (pre ++ [segment]) (Merge.push st segment)).
  { intros Hstep. constructor; cbn [Merge.push Merge.heap Merge.mergedSegments
                                     Merge.previousSegment].
    - rewrite read_app, Hvalues, Hrun, Hstep, <- Hseg. reflexivity.
    - rewrite last_snoc. reflexivity.
    - intros l Hl. apply elem_of_app in Hl as [Hl|Hl]; apply elem_of_app;
        [left; apply Hwithin, Hl|right; exact Hl].
    - apply NoDup_app. split; [exact Hnodup|]. split; [|apply NoDup_singleton].
      intros x Hx Hx'. apply list_elem_of_singleton in Hx' as ->. contradiction.
    - intros l Hl. apply Huntouched. intros Hin. apply Hl, elem_of_app. left. exact Hin. }
  unfold Merge.step.
  destruct (Merge.previousSegment st) as [previous|] eqn:Hprev.
  - assert (Hlast : last (Merge.mergedSegments st) = Some previous) by congruence.
    pose proof (last_Some_snoc _ _ Hlast) as Hsplit.
    set (front := removelast (Merge.mergedSegments st)) in *.
    assert (Hlastv : last (MergeValues.run (read σ pre)) = Some (Merge.heap st previous)).
    { rewrite <- Hvalues, Hsplit, read_app. simpl. rewrite last_snoc. reflexivity. }
    assert (Hfrontv : removelast (MergeValues.run (read σ pre)) = read (Merge.heap st) front).
    { rewrite <- Hvalues, Hsplit, read_app. simpl. rewrite removelast_last. reflexivity. }
    rewrite mergeable_values, Hseg.
    destruct (MergeValues.mergeable (Merge.heap st previous) (σ segment)) eqn:Hm.
    + assert (Hprev_in : previous ∈ pre).
      { apply Hwithin. rewrite Hsplit. apply elem_of_app. right. apply list_elem_of_singleton. reflexivity. }
      assert (Hprev_front : previous ∉ front).
      { rewrite Hsplit in Hnodup. apply NoDup_app in Hnodup as (_ & Hdisj & _).
        intros Hin. apply (Hdisj previous Hin). apply list_elem_of_singleton. reflexivity. }
      constructor; cbn [Merge.heap Merge.mergedSegments Merge.previousSegment].
      * rewrite Hrun. unfold MergeValues.step. rewrite Hlastv, Hm, Hfrontv.
        rewrite Hsplit at 1. rewrite read_app. simpl.
        rewrite fn_lookup_insert, read_insert_notin by exact Hprev_front.
        reflexivity.
      * symmetry. exact Hlast.
      * intros l Hl. apply elem_of_app. left. apply Hwithin, Hl.
      * exact Hnodup.
      * intros l Hl. rewrite fn_lookup_insert_ne.
        -- apply Huntouched. intros Hin. apply Hl, elem_of_app. left. exact Hin.
        -- intros ->. apply Hl, elem_of_app. left. exact Hprev_in.
    + apply Hpushed. unfold MergeValues.step. rewrite Hlastv, Hm. reflexivity.
  - apply Hpushed.
    assert (Hnil : Merge.mergedSegments st = []).
    { destruct (Merge.mergedSegments st) as [|x l _] using rev_ind; [reflexivity|].
      rewrite last_snoc in Hprevious. congruence. }
    rewrite Hnil in Hvalues. simpl in Hvalues. rewrite <- Hvalues. reflexivity.
Qed.

Lemma run_invariant_run (σ : store) (segments : list loc) :
  NoDup segments -> run_invariant σ segments (Merge.run (Merge.init σ) segments).
Proof.
  induction segments as [|segment pre IH] using rev_ind; intros Hnodup.
  - apply run_invariant_init.
  - apply NoDup_app in Hnodup as (Hpre & Hdisj & _).
    rewrite run_snoc. apply run_invariant_step.
    + intros Hin. apply (Hdisj segment Hin). apply list_elem_of_singleton. reflexivity.
    + apply IH, Hpre.
Qed.

(** On distinct objects, the values the pass leaves are those of the pass
    on values. *)
Lemma mergeConsecutiveSegments_read (σ : store) (segments : list loc) :
  NoDup segments ->
  read (mergeConsecutiveSegments σ segments).1 (mergeConsecutiveSegments σ segments).2
  = MergeValues.run (read σ segments).
Proof. intros Hnodup. apply (inv_values _ _ _ (run_invariant_run σ segments Hnodup)). Qed.

(** ** The merge pass on values *)

Lemma MergeValues_run_snoc (l : list ParsedLine.t) (v : ParsedLine.t) :
  MergeValues.run (l ++ [v]) = MergeValues.step (MergeValues.run l) v.
Proof. unfold MergeValues.run. rewrite fold_left_app. reflexivity. Qed.

Lemma mergeable_set_end_r (x p : ParsedLine.t) (e : Z) :
  MergeValues.mergeable x (ParsedLine.set_end p e) = MergeValues.mergeable x p.
Proof. reflexivity. Qed.

Lemma no_mergeable_neighbours_snoc (l : list ParsedLine.t) (v : ParsedLine.t) :
  no_mergeable_neighbours l ->
  (forall p, last l = Some p -> MergeValues.mergeable p v = false) ->
  no_mergeable_neighbours (l ++ [v]).
Proof.
  intros Hl Hlast i a b Ha Hb.
  assert (Hi : (S i < length (l ++ [v]))%nat) by (apply lookup_lt_Some in Hb; exact Hb).
  rewrite length_app in Hi. simpl in Hi.
  rewrite lookup_app_l in Ha by lia.
  destruct (decide (S i < length l)%nat) as [Hlt|Hge].
  - rewrite lookup_app_l in Hb by lia. apply (Hl i); assumption.
  - assert (HSi : S i = length l) by lia.
    rewrite HSi, list_lookup_middle in Hb by reflexivity. injection Hb as <-.
    apply Hlast. rewrite last_lookup. rewrite <- HSi. simpl. exact Ha.
Qed.

Lemma no_mergeable_neighbours_front (l : list ParsedLine.t) (v : ParsedLine.t) :
  no_mergeable_neighbours (l ++ [v]) -> no_mergeable_neighbours l.
Proof.
  intros H i a b Ha Hb. apply (H i).
  - rewrite lookup_app_l by (apply lookup_lt_Some in Ha; exact Ha). exact Ha.
  - rewrite lookup_app_l by (apply lookup_lt_Some in Hb; exact Hb). exact Hb.
Qed.

Lemma no_mergeable_neighbours_step (l : list ParsedLine.t) (v : ParsedLine.t) :
  no_mergeable_neighbours l -> no_mergeable_neighbours (MergeValues.step l v).
Proof.
  intros Hl. unfold MergeValues.step.
  destruct (last l) as [p|] eqn:Hlast.
  - pose proof (last_Some_snoc _ _ Hlast) as Hsplit.
    destruct (MergeValues.mergeable p v) eqn:Hm.
    + rewrite Hsplit in Hl.
      apply no_mergeable_neighbours_snoc.
      * apply (no_mergeable_neighbours_front _ p), Hl.
      * intros x Hx. rewrite mergeable_set_end_r.
        destruct (removelast l) as [|y front _] using rev_ind; [discriminate|].
        rewrite last_snoc in Hx. injection Hx as ->.
        apply (Hl (length front)).
        -- rewrite <- app_assoc. apply list_lookup_middle. reflexivity.
        -- rewrite lookup_app_r by (rewrite length_app; simpl; lia).
           rewrite length_app. simpl.
           replace (S (length front) - (length front + 1))%nat with 0%nat by lia.
           reflexivity.
    + apply no_mergeable_neighbours_snoc; [exact Hl|].
      intros p' Hp'. congruence.
  - intros i a b Ha Hb. destruct i; discriminate.
Qed.

Lemma no_mergeable_neighbours_run (l : list ParsedLine.t) :
  no_mergeable_neighbours (MergeValues.run l).
Proof.
  induction l as [|v l IH] using rev_ind.
  - intros i a b Ha. discriminate.
  - rewrite MergeValues_run_snoc. apply no_mergeable_neighbours_step, IH.
Qed.

(** ** A second pass over merged segments *)

Lemma state_eta (st : Merge.state) :
  st = {| Merge.heap := Merge.heap st;
          Merge.mergedSegments := Merge.mergedSegments st;
          Merge.previousSegment := Merge.previousSegment st |}.
Proof. destruct st. reflexivity. Qed.

(** Where no two neighbours can be merged, the pass pushes every segment
    and writes nothing. *)
Lemma run_no_merge (l : list loc) :
  forall st : Merge.state,
    Merge.previousSegment st = last (Merge.mergedSegments st) ->
    no_mergeable_neighbours (read (Merge.heap st) (Merge.mergedSegments st ++ l)) ->
    Merge.run st l
    = {| Merge.heap := Merge.heap st;
         Merge.mergedSegments := Merge.mergedSegments st ++ l;
         Merge.previousSegment := last (Merge.mergedSegments st ++ l) |}.
Proof.
  induction l as [|x l IH]; intros st Hprev Hno.
  - simpl. rewrite app_nil_r, <- Hprev. apply state_eta.
  - assert (Hstep : Merge.step st x = Merge.push st x).
    { unfold Merge.step.
      destruct (Merge.previousSegment st) as [p|] eqn:Hp; [|reflexivity].
      symmetry in Hprev. pose proof (last_Some_snoc _ _ Hprev) as Hsplit.
      set (front := removelast (Merge.mergedSegments st)) in Hsplit.
      assert (Hl : read (Merge.heap st) (Merge.mergedSegments st ++ x :: l)
                   = read (Merge.heap st) front
                     ++ Merge.heap st p :: Merge.heap st x :: read (Merge.heap st) l).
      { rewrite Hsplit. unfold read. rewrite <- app_assoc, map_app. reflexivity. }
      rewrite Hl in Hno.
      rewrite mergeable_values.
      rewrite (Hno (length (read (Merge.heap st) front))
                 (Merge.heap st p) (Merge.heap st x)); [reflexivity| |].
      - apply list_lookup_middle. reflexivity.
      - rewrite lookup_app_r by lia.
        replace (S (length (read (Merge.heap st) front))
                 - length (read (Merge.heap st) front))%nat with 1%nat by lia.
        reflexivity. }
    change (Merge.run st (x :: l)) with (Merge.run (Merge.step st x) l).
    rewrite Hstep, IH.
    + cbn [Merge.push Merge.heap Merge.mergedSegments].
      rewrite <- app_assoc. reflexivity.
    + cbn [Merge.push Merge.previousSegment Merge.mergedSegments].
      rewrite last_snoc. reflexivity.
    + cbn [Merge.push Merge.heap Merge.mergedSegments].
      rewrite <- app_assoc. exact Hno.
Qed.

(** C5. For every array of distinct segment objects, the merge pass is a
    fixpoint after one pass: run again on its own output, in the store it
    left, it returns the same array and writes nothing; equivalently, no two
    consecutive segments of the output both abut and carry element-wise
    equal class names. *)
Theorem mergeConsecutiveSegments_fixpoint (σ : store) (segments : list loc) :
  NoDup segments ->
  let σ' := (mergeConsecutiveSegments σ segments).1 in
  let merged := (mergeConsecutiveSegments σ segments).2 in
  mergeConsecutiveSegments σ' merged = (σ', merged)
  /\ (forall (i : nat) (a b : loc),
        merged !! i = Some a -> merged !! S i = Some b ->
        ~ (ParsedLine.end_ (σ' a) = ParsedLine.start (σ' b)
           /\ elementwise_equal (ParsedLine.classNames (σ' a))
                                (ParsedLine.classNames (σ' b)))).
Proof.
  intros Hnodup σ' merged.
  assert (Hno : no_mergeable_neighbours (read σ' merged)).
  { subst σ' merged. rewrite mergeConsecutiveSegments_read by exact Hnodup.
    apply no_mergeable_neighbours_run. }
  split.
  - unfold mergeConsecutiveSegments at 1.
    rewrite (run_no_merge merged (Merge.init σ')); [reflexivity|reflexivity|exact Hno].
  - intros i a b Ha Hb Hcond.
    apply mergeable_true in Hcond. rewrite mergeable_values in Hcond.
    rewrite (Hno i (σ' a) (σ' b)) in Hcond; [discriminate| |];
      unfold read; rewrite list_lookup_fmap; [rewrite Ha|rewrite Hb]; reflexivity.
Qed.

Lemma mergeConsecutiveSegments_fixpoint_witness :
  let segments :=
    [segment_of 0 1 ["mtk4"]; segment_of 1 3 ["mtk4"]; segment_of 3 4 ["mtk0"]] in
  let σ := (fresh segments).1 in
  let refs := (fresh segments).2 in
  let σ' := (mergeConsecutiveSegments σ refs).1 in
  let merged := (mergeConsecutiveSegments σ refs).2 in
  merged = [0%nat; 2%nat] /\ mergeConsecutiveSegments σ' merged = (σ', merged).
Proof.
  intros segments σ refs σ' merged. split; [reflexivity|].
  apply (mergeConsecutiveSegments_fixpoint σ refs). compute_done.
Defined.

(** Two spans that follow each other in the output can carry the same class
    attribute: when white space of another colour lies between them (first
    and third part), and when their segments do not abut, in which case
    nothing at all lies between them (second and fourth part). *)
Lemma adjacent_spans_share_class :
  ~ (forall (line : string) (σ : store) (segments : list loc),
       NoDup segments ->
       let σ' := (mergeConsecutiveSegments σ segments).1 in
       let merged := (mergeConsecutiveSegments σ segments).2 in
       forall (i : nat) (c1 c2 : string),
         span_classes σ' line merged !! i = Some c1 ->
         span_classes σ' line merged !! S i = Some c2 ->
         c1 <> c2)
  /\ ~ (forall (line : string) (σ : store) (segments : list loc),
         NoDup segments ->
         let σ' := (mergeConsecutiveSegments σ segments).1 in
         let merged := (mergeConsecutiveSegments σ segments).2 in
         forall (i : nat) (a b : loc) (c1 c2 : string),
           merged !! i = Some a -> merged !! S i = Some b ->
           span_classes σ' line [a] = [c1] -> span_classes σ' line [b] = [c2] ->
           c1 <> c2)
  /\ @codeToHTML_values ascii_builtins "a b"
       [segment_of 0 1 ["mtk4"]; segment_of 1 2 ["mtk0"]; segment_of 2 3 ["mtk4"]]
     = "<span class=" +:+ dquote +:+ "mtk4" +:+ dquote +:+ ">a</span> "
       +:+ "<span class=" +:+ dquote +:+ "mtk4" +:+ dquote +:+ ">b</span>"
  /\ @codeToHTML_values ascii_builtins "a b"
       [segment_of 0 1 ["mtk4"]; segment_of 2 3 ["mtk4"]]
     = "<span class=" +:+ dquote +:+ "mtk4" +:+ dquote +:+ ">a</span>"
       +:+ "<span class=" +:+ dquote +:+ "mtk4" +:+ dquote +:+ ">b</span>".
Proof.
  split; [|split; [|split; vm_compute; reflexivity]].
  - intros H.
    pose (segments := [segment_of 0 1 ["mtk4"]; segment_of 1 2 ["mtk0"];
                       segment_of 2 3 ["mtk4"]]).
    specialize (H "a b" (fresh segments).1 (fresh segments).2 ltac:(compute_done)
                  0%nat "mtk4" "mtk4").
    apply H; vm_compute; reflexivity.
  - intros H.
    pose (segments := [segment_of 0 1 ["mtk4"]; segment_of 2 3 ["mtk4"]]).
    specialize (H "a b" (fresh segments).1 (fresh segments).2 ltac:(compute_done)
                  0%nat 0%nat 1%nat "mtk4" "mtk4").
    apply H; vm_compute; reflexivity.
Qed.

(** ** Slices and the text that segments cover *)

Lemma string_app_nil_r (s : string) : s +:+ EmptyString = s.
Proof.
  induction s as [|c s IH]; [reflexivity|].
  change (String c (s +:+ EmptyString) = String c s). f_equal. exact IH.
Qed.

Lemma string_app_cons (c : ascii) (s1 s2 : string) :
  String c s1 +:+ s2 = String c (s1 +:+ s2).
Proof. reflexivity. Qed.

Lemma string_app_assoc (s1 s2 s3 : string) : (s1 +:+ s2) +:+ s3 = s1 +:+ (s2 +:+ s3).
Proof.
  induction s1 as [|c s1 IH]; [reflexivity|].
  rewrite !string_app_cons. f_equal. exact IH.
Qed.

Lemma substring_nil (n m : nat) : substring n m EmptyString = EmptyString.
Proof. destruct n, m; reflexivity. Qed.

Lemma substring_split (s : string) :
  forall n m1 m2 : nat,
    substring n m1 s +:+ substring (n + m1) m2 s = substring n (m1 + m2) s.
Proof.
  induction s as [|c s IH]; intros n m1 m2.
  - rewrite !substring_nil. reflexivity.
  - destruct n as [|n].
    + destruct m1 as [|m1]; [reflexivity|].
      change (String c (substring 0 m1 s +:+ substring (0 + m1) m2 s)
              = String c (substring 0 (m1 + m2) s)).
      f_equal. apply (IH 0%nat).
    + apply (IH n).
Qed.

Lemma slice_split (line : string) (a b c : Z) :
  0 <= a <= b -> b <= c ->
  Str.slice line a b +:+ Str.slice line b c = Str.slice line a c.
Proof.
  intros Hab Hbc. unfold Str.slice.
  destruct (a <? 0) eqn:Ha; [apply Z.ltb_lt in Ha; lia|].
  destruct (b <? 0) eqn:Hb; [apply Z.ltb_lt in Hb; lia|].
  destruct (c <? 0) eqn:Hc; [apply Z.ltb_lt in Hc; lia|].
  set (len := Z.of_nat (String.length line)).
  assert (0 <= len) by (subst len; lia).
  replace (Z.to_nat (Z.min b len))
    with (Z.to_nat (Z.min a len) + Z.to_nat (Z.max (Z.min b len - Z.min a len) 0))%nat by lia.
  rewrite substring_split. f_equal. lia.
Qed.

(** Within the line, the slice is the substring between the two offsets. *)
Lemma slice_substring (line : string) (a b : Z) :
  0 <= a <= b -> b <= Z.of_nat (String.length line) ->
  Str.slice line a b = substring (Z.to_nat a) (Z.to_nat (b - a)) line.
Proof.
  intros Hab Hb. unfold Str.slice.
  destruct (a <? 0) eqn:Ha; [apply Z.ltb_lt in Ha; lia|].
  destruct (b <? 0) eqn:Hb0; [apply Z.ltb_lt in Hb0; lia|].
  f_equal; lia.
Qed.

Lemma covered_text_app (line : string) (l1 l2 : list ParsedLine.t) :
  covered_text line (l1 ++ l2) = covered_text line l1 +:+ covered_text line l2.
Proof.
  unfold covered_text. induction l1 as [|x l1 IH]; [reflexivity|].
  cbn [app map foldr]. rewrite IH, string_app_assoc. reflexivity.
Qed.

Lemma covered_text_singleton (line : string) (v : ParsedLine.t) :
  covered_text line [v] = Str.slice line (ParsedLine.start v) (ParsedLine.end_ v).
Proof. unfold covered_text. cbn [map foldr]. apply string_app_nil_r. Qed.

Lemma MergeValues_step_covered (line : string) (l : list ParsedLine.t) (v : ParsedLine.t) :
  Forall is_range l -> is_range v ->
  Forall is_range (MergeValues.step l v)
  /\ covered_text line (MergeValues.step l v)
     = covered_text line l +:+ covered_text line [v].
Proof.
  intros Hl Hv. unfold MergeValues.step.
  destruct (last l) as [p|] eqn:Hlast.
  - pose proof (last_Some_snoc _ _ Hlast) as Hsplit.
    destruct (MergeValues.mergeable p v) eqn:Hm.
    + rewrite Hsplit in Hl. apply Forall_app in Hl as [Hfront Hp].
      rewrite Forall_singleton in Hp.
      unfold MergeValues.mergeable in Hm. apply andb_true_iff in Hm as [Hend _].
      apply Z.eqb_eq in Hend. unfold is_range in Hp, Hv.
      split.
      * apply Forall_app. split; [exact Hfront|]. apply Forall_singleton.
        unfold is_range. simpl. lia.
      * rewrite Hsplit at 2. rewrite !covered_text_app, !covered_text_singleton.
        rewrite string_app_assoc. f_equal. simpl.
        rewrite Hend. symmetry. apply slice_split; lia.
    + split; [|apply covered_text_app].
      apply Forall_app. split; [exact Hl|]. apply Forall_singleton, Hv.
  - destruct l as [|x l _] using rev_ind; [|rewrite last_snoc in Hlast; discriminate].
    split; [apply Forall_singleton, Hv|reflexivity].
Qed.

Lemma MergeValues_run_covered (line : string) (l : list ParsedLine.t) :
  Forall is_range l ->
  Forall is_range (MergeValues.run l)
  /\ covered_text line (MergeValues.run l) = covered_text line l.
Proof.
  induction l as [|v l IH] using rev_ind; intros Hl.
  - split; [constructor|reflexivity].
  - apply Forall_app in Hl as [Hl Hv]. rewrite Forall_singleton in Hv.
    destruct (IH Hl) as [IHr IHc].
    rewrite MergeValues_run_snoc.
    destruct (MergeValues_step_covered line _ v IHr Hv) as [Hr Hc].
    split; [exact Hr|]. rewrite Hc, IHc, covered_text_app. reflexivity.
Qed.

(** C10. For every line and every array of distinct segment objects, each a
    character range (its bounds are offsets in order): the texts that the
    merged segments cover, put end to end, are the texts that the segments
    given covered, put end to end. *)
Theorem mergeConsecutiveSegments_covered_text
    (line : string) (σ : store) (segments : list loc) :
  NoDup segments ->
  Forall is_range (read σ segments) ->
  covered_text line
    (read (mergeConsecutiveSegments σ segments).1 (mergeConsecutiveSegments σ segments).2)
  = covered_text line (read σ segments).
Proof.
  intros Hnodup Hrange.
  rewrite mergeConsecutiveSegments_read by exact Hnodup.
  apply MergeValues_run_covered, Hrange.
Qed.

Lemma mergeConsecutiveSegments_covered_text_witness :
  let segments :=
    [segment_of 0 1 ["mtk4"]; segment_of 1 3 ["mtk4"]; segment_of 3 4 ["mtk0"]] in
  let σ := (fresh segments).1 in
  let refs := (fresh segments).2 in
  covered_text "abcd"
    (read (mergeConsecutiveSegments σ refs).1 (mergeConsecutiveSegments σ refs).2)
  = "abcd".
Proof.
  intros segments σ refs.
  transitivity (covered_text "abcd" (read σ refs)); [|reflexivity].
  apply mergeConsecutiveSegments_covered_text.
  - compute_done.
  - repeat constructor; unfold is_range; simpl; lia.
Defined.

(** Why the objects of an array are taken distinct: the pass writes the
    accumulator in place, so an object that stands twice in the array is
    also changed where it stands the second time. [highlightText] never
    builds such an array: it makes a new object for every token. *)
Lemma same_object_twice :
  let σ : store := fun l =>
    if (l =? 0)%nat then segment_of 0 1 ["mtk1"] else segment_of 1 2 ["mtk1"] in
  let segments := [0%nat; 1%nat; 0%nat] in
  read (mergeConsecutiveSegments σ segments).1 (mergeConsecutiveSegments σ segments).2
  = [segment_of 0 2 ["mtk1"]; segment_of 0 2 ["mtk1"]]
  /\ covered_text "ab" (read σ segments) = "aba"
  /\ covered_text "ab"
       (read (mergeConsecutiveSegments σ segments).1 (mergeConsecutiveSegments σ segments).2)
     = "abab".
Proof. repeat split; vm_compute; reflexivity. Qed.

(** ** Trimming and white space *)

Lemma trimStart_empty (s : string) :
  Str.trimStart s = EmptyString <-> whitespace_only s = true.
Proof.
  induction s as [|c s IH]; simpl; [tauto|].
  destruct (Str.isWhiteSpace c); simpl; [exact IH|].
  split; discriminate.
Qed.

Lemma whitespace_only_trimStart (s : string) :
  whitespace_only (Str.trimStart s) = whitespace_only s.
Proof.
  induction s as [|c s IH]; simpl; [reflexivity|].
  destruct (Str.isWhiteSpace c) eqn:Hc; simpl; [exact IH|].
  rewrite Hc. reflexivity.
Qed.

Lemma whitespace_only_rev_app (s1 s2 : string) :
  whitespace_only (String.rev_app s1 s2) = whitespace_only s1 && whitespace_only s2.
Proof.
  revert s2. induction s1 as [|c s1 IH]; intros s2; simpl; [reflexivity|].
  rewrite IH. simpl.
  destruct (Str.isWhiteSpace c), (whitespace_only s1); reflexivity.
Qed.

Lemma whitespace_only_rev (s : string) :
  whitespace_only (String.rev s) = whitespace_only s.
Proof.
  unfold String.rev. rewrite whitespace_only_rev_app. simpl. apply andb_true_r.
Qed.

Lemma rev_app_empty (s1 s2 : string) :
  String.rev_app s1 s2 = EmptyString <-> s1 = EmptyString /\ s2 = EmptyString.
Proof.
  revert s2. induction s1 as [|c s1 IH]; intros s2; simpl.
  - tauto.
  - rewrite IH. split; [intros [_ Habs]; discriminate|intros [Habs _]; discriminate].
Qed.

Lemma rev_empty (s : string) : String.rev s = EmptyString <-> s = EmptyString.
Proof. unfold String.rev. rewrite rev_app_empty. tauto. Qed.

Lemma trim_empty (s : string) :
  Str.trim s = EmptyString <-> whitespace_only s = true.
Proof.
  unfold Str.trim, Str.trimEnd.
  rewrite rev_empty, trimStart_empty, whitespace_only_rev, whitespace_only_trimStart.
  reflexivity.
Qed.

Lemma trim_test (s : string) :
  negb (String.eqb (Str.trim s) EmptyString) = negb (whitespace_only s).
Proof.
  f_equal. destruct (whitespace_only s) eqn:Hw.
  - apply String.eqb_eq, trim_empty, Hw.
  - apply String.eqb_neq. intros Habs. apply trim_empty in Habs. congruence.
Qed.

(** ** Emission *)

Lemma codeToHTML_step_emitted `{Builtins} (σ : store) (line highlightedLine : string)
    (segment : loc) :
  codeToHTML_step σ line highlightedLine segment
  = highlightedLine +:+ emitted line (σ segment).
Proof.
  unfold codeToHTML_step, emitted. rewrite trim_test.
  destruct (whitespace_only _); simpl negb; cbv iota; [reflexivity|].
  rewrite !string_app_assoc. reflexivity.
Qed.

Lemma fold_codeToHTML_step `{Builtins} (σ : store) (line : string) (merged : list loc) :
  forall highlightedLine : string,
    fold_left (codeToHTML_step σ line) merged highlightedLine
    = highlightedLine +:+ html_of line (read σ merged).
Proof.
  unfold html_of, read.
  induction merged as [|segment merged IH]; intros highlightedLine.
  - simpl. symmetry. apply string_app_nil_r.
  - cbn [fold_left map foldr]. rewrite IH, codeToHTML_step_emitted.
    apply string_app_assoc.
Qed.

(** C6. For every line and every merged segment, the emission pass takes the
    slice of the line between the segment's bounds; a slice that is only
    white space, the empty one included, is written as it is, and any other
    is written as a span whose class attribute is the class names joined by
    one space and whose content is the slice, escaped by [he.encode] with
    named references switched on; the line's HTML is these pieces end to end, in
    the order of the merged segments.
    On the line of three spaces with the one segment from 0 to 3 the result
    is the three spaces. With the escaping of the example instance, the
    characters ampersand, less-than, greater-than and double quote come out
    as their named references. *)
Theorem codeToHTML_emission `{Builtins} (line : string) (σ : store) (segments : list loc) :
  let σ' := (mergeConsecutiveSegments σ segments).1 in
  let merged := (mergeConsecutiveSegments σ segments).2 in
  codeToHTML σ line segments = (σ', html_of line (read σ' merged))
  /\ (forall segment : loc,
       let text := Str.slice line (ParsedLine.start (σ' segment))
                                  (ParsedLine.end_ (σ' segment)) in
       codeToHTML_step σ' line EmptyString segment
       = if whitespace_only text then text
         else "<span class=" +:+ dquote
              +:+ Str.join " " (ParsedLine.classNames (σ' segment)) +:+ dquote +:+ ">"
              +:+ he_encode text {| useNamedReferences := true |}
              +:+ "</span>")
  /\ codeToHTML_values "   " [segment_of 0 3 ["mtk0"]] = "   "
  /\ @codeToHTML_values ascii_builtins ("a&b<c>d" +:+ dquote) [segment_of 0 8 ["mtk0"; "mtkb"]]
     = "<span class=" +:+ dquote +:+ "mtk0 mtkb" +:+ dquote +:+ ">"
       +:+ "a&amp;b&lt;c&gt;d&quot;" +:+ "</span>".
Proof.
  intros σ' merged. split; [|split; [|split]].
  - unfold codeToHTML.
    destruct (mergeConsecutiveSegments σ segments) as [σ1 merged1] eqn:Hm.
    subst σ' merged. cbn [fst snd]. f_equal.
    apply (fold_codeToHTML_step σ1 line merged1 EmptyString).
  - intros segment text. rewrite codeToHTML_step_emitted. reflexivity.
  - reflexivity.
  - vm_compute. reflexivity.
Qed.

(** ** The class map *)

Lemma first_occurrences_elem (l : list string) (x : string) :
  x ∈ first_occurrences l <-> x ∈ l.
Proof.
  induction l as [|y l IH]; simpl; [reflexivity|].
  rewrite !elem_of_cons, list_elem_of_filter, IH.
  destruct (decide (x = y)); tauto.
Qed.

Lemma first_occurrences_NoDup (l : list string) : NoDup (first_occurrences l).
Proof.
  induction l as [|y l IH]; simpl; constructor.
  - rewrite list_elem_of_filter. tauto.
  - apply NoDup_filter, IH.
Qed.

Lemma first_occurrences_snoc (l : list string) (c : string) :
  first_occurrences (l ++ [c])
  = if bool_decide (c ∈ l) then first_occurrences l else first_occurrences l ++ [c].
Proof.
  induction l as [|y l IH]; [reflexivity|].
  cbn [app first_occurrences]. rewrite IH.
  destruct (decide (c = y)) as [->|Hne].
  - rewrite (bool_decide_eq_true_2 (y ∈ y :: l)) by (left).
    case_bool_decide; [reflexivity|].
    rewrite filter_app, filter_cons_False, filter_nil, app_nil_r by tauto.
    reflexivity.
  - case_bool_decide as Hin.
    + rewrite bool_decide_eq_true_2 by (right; exact Hin). reflexivity.
    + rewrite bool_decide_eq_false_2
        by (rewrite elem_of_cons; intros [?|?]; contradiction).
      rewrite filter_app, filter_cons_True, filter_nil by exact Hne.
      reflexivity.
Qed.

Lemma numbered_snoc (keys : list string) (key : string) :
  numbered (keys ++ [key])
  = numbered keys ++ [(key, "mtk" +:+ JS.toString (Z.of_nat (length keys)))].
Proof.
  unfold numbered. rewrite imap_app. simpl.
  rewrite Nat.add_0_r. reflexivity.
Qed.

Lemma numbered_keys (keys : list string) : map fst (numbered keys) = keys.
Proof.
  unfold numbered. change (map fst ?l) with (fst <$> l).
  rewrite fmap_imap. unfold compose. simpl.
  induction keys as [|k keys IH] using rev_ind; [reflexivity|].
  rewrite imap_app, IH. reflexivity.
Qed.

Lemma JSMap_has_elem (m : JSMap.t) (k : string) :
  JSMap.has m k = bool_decide (k ∈ map fst m).
Proof.
  unfold JSMap.has. induction m as [|e m IH]; [reflexivity|].
  cbn [existsb map]. rewrite IH.
  destruct (String.eqb (fst e) k) eqn:Heq.
  - apply String.eqb_eq in Heq. subst k. simpl. symmetry.
    apply bool_decide_eq_true_2. left.
  - apply String.eqb_neq in Heq. simpl.
    apply bool_decide_ext. rewrite elem_of_cons. split; [tauto|].
    intros [Hk|Hk]; [congruence|exact Hk].
Qed.

Lemma JSMap_set_new (m : JSMap.t) (k v : string) :
  JSMap.has m k = false -> JSMap.set m k v = m ++ [(k, v)].
Proof.
  unfold JSMap.has. induction m as [|e m IH]; [reflexivity|].
  cbn [existsb JSMap.set app]. intros Hhas.
  apply orb_false_iff in Hhas as [Hhead Htail].
  rewrite Hhead, IH by exact Htail. reflexivity.
Qed.

Lemma JSMap_get_lookup (m : JSMap.t) (i : nat) (k v : string) :
  NoDup (map fst m) -> m !! i = Some (k, v) -> JSMap.get m k = Some v.
Proof.
  unfold JSMap.get. revert i. induction m as [|e m IH]; intros i Hnodup Hi; [discriminate|].
  cbn [map] in Hnodup. apply NoDup_cons in Hnodup as [Hnotin Hnodup].
  cbn [find]. destruct i as [|i].
  - injection Hi as ->. simpl. rewrite String.eqb_refl. reflexivity.
  - simpl in Hi. destruct (String.eqb (fst e) k) eqn:Heq.
    + apply String.eqb_eq in Heq. exfalso. apply Hnotin. rewrite Heq.
      apply list_elem_of_In, in_map_iff. exists (k, v). split; [reflexivity|].
      apply list_elem_of_In, list_elem_of_lookup. exists i. exact Hi.
    + apply (IH i); assumption.
Qed.

(** What the two variables of [createClassNameMap] hold after the entries
    [tokens]. *)
Lemma createClassNameMap_fold `{Builtins} (tokens : list IRawThemeSetting.t) :
  fold_left createClassNameMap_step tokens (JSMap.empty, 0)
  = (numbered (first_occurrences (omap uppercased_foreground tokens)),
     Z.of_nat (length (first_occurrences (omap uppercased_foreground tokens)))).
Proof.
  induction tokens as [|token tokens IH] using rev_ind; [reflexivity|].
  rewrite fold_left_app, IH, omap_app. cbn [fold_left].
  assert (Hone : omap uppercased_foreground [token]
                 = match uppercased_foreground token with Some c => [c] | None => [] end).
  { simpl. destruct (uppercased_foreground token); reflexivity. }
  rewrite Hone.
  set (keys := first_occurrences (omap uppercased_foreground tokens)).
  assert (Hstep :
    createClassNameMap_step (numbered keys, Z.of_nat (length keys)) token
    = match uppercased_foreground token with
      | Some color =>
          if negb (JSMap.has (numbered keys) color)
          then (JSMap.set (numbered keys) color
                  ("mtk" +:+ JS.toString (Z.of_nat (length keys))),
                Z.of_nat (length keys) + 1)
          else (numbered keys, Z.of_nat (length keys))
      | None => (numbered keys, Z.of_nat (length keys))
      end).
  { unfold createClassNameMap_step, uppercased_foreground.
    destruct (IRawThemeSetting.foreground (IRawThemeSetting.settings token)) as [fg|];
      [destruct (Str.truthy fg)|]; reflexivity. }
  rewrite Hstep.
  destruct (uppercased_foreground token) as [color|]; [|rewrite app_nil_r; reflexivity].
  rewrite first_occurrences_snoc.
  rewrite JSMap_has_elem, numbered_keys.
  assert (Hiff : bool_decide (color ∈ omap uppercased_foreground tokens)
                 = bool_decide (color ∈ keys)).
  { apply bool_decide_ext. subst keys. symmetry. apply first_occurrences_elem. }
  rewrite Hiff.
  destruct (bool_decide (color ∈ keys)) eqn:Hin; simpl negb; cbv iota.
  - reflexivity.
  - rewrite JSMap_set_new by (rewrite JSMap_has_elem, numbered_keys; exact Hin).
    fold keys. rewrite numbered_snoc, length_app. simpl length. f_equal. lia.
Qed.

(** C7. For every theme, [createClassNameMap] goes through the default
    foreground entry followed by [theme.tokenColors], where the default
    foreground is [colors["editor.foreground"]], or ["#000000"] when that is
    absent. The map it returns holds the upper-cased non-empty foregrounds
    without their repetitions, in the order of their first occurrence, the
    key at position [i] mapped to the class ["mtk" + i], counted from 0; its
    keys are distinct, so that [get] of a key returns its class; a key is in
    the map exactly when it is the upper-cased foreground of an entry. The
    result depends on the default foreground and on the entries only: equal
    inputs give equal maps. *)
Theorem createClassNameMap_spec `{Builtins} (theme : PublicTheme.t) :
  let classes := createClassNameMap theme in
  IRawThemeSetting.foreground (IRawThemeSetting.settings (defaultTokenColors theme))
  = Some (match PublicTheme.colors theme !! "editor.foreground" with
          | Some color => color
          | None => "#000000"
          end)
  /\ classes = numbered (first_occurrences (uppercased_foregrounds theme))
  /\ NoDup (map fst classes)
  /\ (forall (i : nat) (key className : string),
       classes !! i = Some (key, className) ->
       className = "mtk" +:+ JS.toString (Z.of_nat i)
       /\ JSMap.get classes key = Some className)
  /\ (forall key : string,
       JSMap.has classes key = true <-> key ∈ uppercased_foregrounds theme)
  /\ (forall theme' : PublicTheme.t,
       PublicTheme.colors theme' !! "editor.foreground"
         = PublicTheme.colors theme !! "editor.foreground" ->
       PublicTheme.tokenColors theme' = PublicTheme.tokenColors theme ->
       createClassNameMap theme' = classes).
Proof.
  intros classes.
  assert (Hclasses : classes = numbered (first_occurrences (uppercased_foregrounds theme))).
  { subst classes. unfold createClassNameMap. rewrite createClassNameMap_fold. reflexivity. }
  assert (Hkeys : map fst classes = first_occurrences (uppercased_foregrounds theme)).
  { rewrite Hclasses. apply numbered_keys. }
  assert (Hnodup : NoDup (map fst classes)).
  { rewrite Hkeys. apply first_occurrences_NoDup. }
  split; [reflexivity|]. split; [exact Hclasses|]. split; [exact Hnodup|].
  split; [|split].
  - intros i key className Hi. split.
    + rewrite Hclasses in Hi. unfold numbered in Hi.
      rewrite list_lookup_imap in Hi.
      destruct (first_occurrences (uppercased_foregrounds theme) !! i); [|discriminate].
      simpl in Hi. congruence.
    + apply (JSMap_get_lookup classes i); assumption.
  - intros key. rewrite JSMap_has_elem, Hkeys, bool_decide_eq_true.
    apply first_occurrences_elem.
  - intros theme' Hcolor Htokens. subst classes.
    unfold createClassNameMap, defaultTokenColors. rewrite Hcolor, Htokens. reflexivity.
Qed.

Lemma createClassNameMap_spec_witness :
  @createClassNameMap ascii_builtins example_theme
  = [("#000000", "mtk0"); ("#E06C75", "mtk1"); ("#98C379", "mtk2")]
  /\ JSMap.get (@createClassNameMap ascii_builtins example_theme) "#E06C75" = Some "mtk1".
Proof.
  split; [reflexivity|].
  apply (proj1 (proj2 (proj2 (proj2
           (@createClassNameMap_spec ascii_builtins example_theme)))) 1%nat).
  reflexivity.
Defined.

(** ** Resolving a tag *)

(** The message logged for an unknown tag. *)
Lemma syntaxName_unknown (tag : string) :
  extensionToGrammarKey !! tag = None ->
  tag ∉ Object_prototype_keys ->
  tag <> EmptyString ->
  syntaxName tag
  = (["Unsupported grammar <" +:+ tag +:+ ">. Falling back to plain text"], OwnKey TEXT).
Proof.
  intros Hown Hproto Hne. unfold syntaxName, in_extensionToGrammarKey.
  rewrite Hown, (bool_decide_eq_false_2 (is_Some None)) by (intros [? ?]; discriminate).
  rewrite bool_decide_eq_false_2 by exact Hproto. simpl.
  apply String.eqb_neq in Hne. rewrite Hne. reflexivity.
Qed.

Lemma syntaxName_known (tag : string) (k : GrammarKey) :
  extensionToGrammarKey !! tag = Some k -> syntaxName tag = ([], OwnKey k).
Proof.
  intros Hown. unfold syntaxName, in_extensionToGrammarKey, get_extensionToGrammarKey.
  rewrite Hown, (bool_decide_eq_true_2 (is_Some (Some k))) by (eexists; reflexivity).
  reflexivity.
Qed.

(** Away from the names of the prototype, the lookup is the exact lookup in
    the table: a tag of the table yields its key and logs nothing, the empty
    tag yields the plain-text key and logs nothing, and any other tag yields
    the plain-text key and logs one line that holds the tag. *)
Lemma syntaxName_off_prototype (tag : string) :
  tag ∉ Object_prototype_keys ->
  syntaxName tag
  = match extensionToGrammarKey !! tag with
    | Some k => ([], OwnKey k)
    | None =>
        (if decide (tag = EmptyString) then []
         else ["Unsupported grammar <" +:+ tag +:+ ">. Falling back to plain text"],
         OwnKey TEXT)
    end.
Proof.
  intros Hproto.
  destruct (extensionToGrammarKey !! tag) as [k|] eqn:Hown.
  - apply syntaxName_known, Hown.
  - destruct (decide (tag = EmptyString)) as [->|Hne].
    + reflexivity.
    + apply syntaxName_unknown; assumption.
Qed.

Lemma syntaxName_examples :
  syntaxName "js" = ([], OwnKey JAVASCRIPT)
  /\ syntaxName "JS"
     = (["Unsupported grammar <JS>. Falling back to plain text"], OwnKey TEXT)
  /\ syntaxName "foobar"
     = (["Unsupported grammar <foobar>. Falling back to plain text"], OwnKey TEXT)
  /\ syntaxName EmptyString = ([], OwnKey TEXT).
Proof. repeat split; vm_compute; reflexivity. Qed.

(** C8, at a tag that names a member of [Object.prototype]. The tag
    ["toString"] is not empty and not in the table of extensions, yet the
    [in] test finds it on the prototype: nothing is logged and the value
    returned is the inherited member, not the plain-text grammar key. The
    same holds for every name of the prototype. *)
Theorem syntaxName_prototype_member :
  extensionToGrammarKey !! "toString" = None
  /\ syntaxName "toString" = ([], Inherited "toString")
  /\ syntaxName "toString"
     <> (["Unsupported grammar <toString>. Falling back to plain text"], OwnKey TEXT)
  /\ Forall (fun tag => syntaxName tag = ([], Inherited tag)) Object_prototype_keys.
Proof.
  split; [vm_compute; reflexivity|].
  split; [vm_compute; reflexivity|].
  split; [vm_compute; discriminate|].
  repeat constructor; vm_compute; reflexivity.
Qed.

(** ** A line's HTML depends on the values of its segments only *)

Lemma codeToHTML_read `{Builtins} (σ : store) (line : string) (segments : list loc) :
  NoDup segments ->
  (codeToHTML σ line segments).2 = html_of line (MergeValues.run (read σ segments)).
Proof.
  intros Hnodup. unfold codeToHTML.
  pose proof (mergeConsecutiveSegments_read σ segments Hnodup) as Hread.
  destruct (mergeConsecutiveSegments σ segments) as [σ' merged].
  cbn [fst snd] in *. rewrite fold_codeToHTML_step, Hread. reflexivity.
Qed.

Lemma read_fresh (segments : list ParsedLine.t) :
  read (fresh segments).1 (fresh segments).2 = segments.
Proof.
  unfold read, fresh. cbn [fst snd].
  apply list_eq. intros i.
  change (map ?f ?l) with (f <$> l). rewrite list_lookup_fmap.
  destruct (decide (i < length segments)%nat) as [Hlt|Hge].
  - rewrite lookup_seq_lt by exact Hlt. simpl.
    destruct (lookup_lt_is_Some_2 segments i Hlt) as [v Hv].
    rewrite Hv. f_equal. apply nth_lookup_Some with (d := {| ParsedLine.start := 0; ParsedLine.end_ := 0; ParsedLine.classNames := [] |}) in Hv.
    exact Hv.
  - rewrite lookup_seq_ge by lia. rewrite lookup_ge_None_2 by lia. reflexivity.
Qed.

Lemma codeToHTML_values_eq `{Builtins} (line : string) (segments : list ParsedLine.t) :
  codeToHTML_values line segments = html_of line (MergeValues.run segments).
Proof.
  unfold codeToHTML_values.
  pose proof (read_fresh segments) as Hread.
  destruct (fresh segments) as [σ refs] eqn:Hfresh. cbn [fst snd] in Hread.
  rewrite codeToHTML_read, Hread; [reflexivity|].
  unfold fresh in Hfresh. injection Hfresh as _ <-. apply NoDup_seq.
Qed.

(** ** Building the segments of a line *)

Lemma token_classNames_loaded (classes : JSMap.t) (colors : list (option string))
    (binary_tokens : list Z) (token : IToken.t) :
  token_classNames {| classNameMap := Some classes; colorMap := Some colors |}
    binary_tokens token
  = inr (class_names_of classes colors binary_tokens token).
Proof.
  unfold token_classNames, class_names_of. cbn [classNameMap colorMap].
  destruct (DecodedTokenMeta.bold _), (DecodedTokenMeta.italic _),
    (DecodedTokenMeta.underline _); reflexivity.
Qed.

(** With the theme loaded the inner loop cannot throw: it stores the
    segments of the tokens at the next free addresses, in order, and leaves
    the objects below them alone. *)
Lemma build_segments_loaded (classes : JSMap.t) (colors : list (option string))
    (binary_tokens : list Z) (full : list IToken.t) :
  forall (σ : store) (next : loc) (segments : list loc),
  exists σ' : store,
    build_segments {| classNameMap := Some classes; colorMap := Some colors |}
      binary_tokens full σ next segments
    = inr (σ', (next + length full)%nat, segments ++ seq next (length full))
    /\ read σ' (seq next (length full))
       = map (fun token =>
                {| ParsedLine.start := IToken.startIndex token;
                   ParsedLine.end_ := IToken.endIndex token;
                   ParsedLine.classNames :=
                     class_names_of classes colors binary_tokens token |}) full
    /\ forall l : loc, (l < next)%nat -> σ' l = σ l.
Proof.
  induction full as [|token full IH]; intros σ next segments.
  - exists σ. simpl. rewrite Nat.add_0_r, app_nil_r. auto.
  - cbn [build_segments]. rewrite token_classNames_loaded.
    set (segment := {| ParsedLine.start := IToken.startIndex token |}).
    destruct (IH (<[next := segment]> σ) (S next) (segments ++ [next]))
      as (σ' & Hbuild & Hread & Hbelow).
    exists σ'. split; [|split].
    + rewrite Hbuild. cbn [length seq]. rewrite <- app_assoc.
      replace (S next + length full)%nat with (next + S (length full))%nat by lia.
      reflexivity.
    + cbn [length seq read map]. unfold read in Hread. rewrite Hread.
      rewrite Hbelow by lia. rewrite fn_lookup_insert. reflexivity.
    + intros l Hl. rewrite Hbelow by lia. apply fn_lookup_insert_ne. lia.
Qed.

(** The array that [highlightText] hands to [codeToHTML] holds distinct
    objects. *)
Lemma build_segments_distinct (this : Highlighter) (binary_tokens : list Z)
    (full : list IToken.t) :
  forall (σ σ' : store) (next next' : loc) (segments segments' : list loc),
    build_segments this binary_tokens full σ next segments = inr (σ', next', segments') ->
    NoDup segments -> (forall l, l ∈ segments -> (l < next)%nat) ->
    NoDup segments'.
Proof.
  induction full as [|token full IH]; intros σ σ' next next' segments segments' Hbuild Hnodup Hbelow.
  - simpl in Hbuild. injection Hbuild as _ _ <-. exact Hnodup.
  - cbn [build_segments] in Hbuild.
    destruct (token_classNames this binary_tokens token) as [e|classNames]; [discriminate|].
    apply IH in Hbuild; [exact Hbuild| |].
    + apply NoDup_app. split; [exact Hnodup|]. split; [|apply NoDup_singleton].
      intros l Hl Hl'. apply list_elem_of_singleton in Hl' as ->.
      apply Hbelow in Hl. lia.
    + intros l Hl. apply elem_of_app in Hl as [Hl|Hl].
      * apply Hbelow in Hl. lia.
      * apply list_elem_of_singleton in Hl as ->. lia.
Qed.

(** ** The loop over the lines *)

Lemma highlight_lines_loaded `{Builtins} `{Textmate} (classes : JSMap.t) (colors : list (option string))
    (grammar : IGrammar) (text : list string) :
  forall (state : StackElement) (σ : store) (next : loc) (output : list string)
         (calls : list tokenizer_call),
    highlight_lines {| classNameMap := Some classes; colorMap := Some colors |}
      grammar text state σ next output calls
    = (calls ++ flat_map calls_of (zip text (line_states grammar text state)),
       inr (output
            ++ map (line_html classes colors grammar)
                   (zip text (line_states grammar text state)))).
Proof.
  induction text as [|line text IH]; intros state σ next output calls.
  - simpl. rewrite !app_nil_r. reflexivity.
  - cbn [highlight_lines].
    destruct (build_segments_loaded classes colors
                (ITokenizeLineResult.tokens (tokenizeLine2 grammar line state))
                (ITokenizeLineResult.tokens (tokenizeLine grammar line state))
                σ next []) as (σ1 & Hbuild & Hread & _).
    rewrite Hbuild. cbn [app].
    pose proof (codeToHTML_read σ1 line
                  (seq next (length (ITokenizeLineResult.tokens
                                       (tokenizeLine grammar line state))))
                  (NoDup_seq _ _)) as Hhtml.
    destruct (codeToHTML σ1 line _) as [σ2 html]. cbn [snd] in Hhtml.
    rewrite IH. cbn [line_states zip zip_with flat_map map].
    rewrite <- !app_assoc. f_equal. f_equal. f_equal. f_equal.
    unfold line_html. rewrite Hhtml, Hread, codeToHTML_values_eq. reflexivity.
Qed.

Lemma line_states_length `{Textmate} (grammar : IGrammar) (text : list string) :
  forall state : StackElement, length (line_states grammar text state) = length text.
Proof.
  induction text as [|line text IH]; intros state; [reflexivity|].
  simpl. rewrite IH. reflexivity.
Qed.

Lemma line_states_next `{Textmate} (grammar : IGrammar) (text : list string) :
  forall (first : StackElement) (i : nat) (line : string) (state : StackElement),
    text !! i = Some line ->
    line_states grammar text first !! i = Some state ->
    (S i < length text)%nat ->
    line_states grammar text first !! S i
    = Some (ITokenizeLineResult.ruleStack (tokenizeLine2 grammar line state)).
Proof.
  induction text as [|line0 text IH]; intros first i line state Hline Hstate Hlen;
    [discriminate|].
  destruct i as [|i].
  - injection Hline as ->. injection Hstate as ->.
    destruct text as [|line1 text]; [simpl in Hlen; lia|reflexivity].
  - simpl in Hlen. apply (IH _ i line state); [exact Hline|exact Hstate|lia].
Qed.

(** C1. For every list of lines, every loadable grammar and a highlighter
    whose theme is loaded: the lines are gone through in order, the first
    one in the state [INITIAL] and each next one in the state that the
    packed call returned for the line before; for each line the grammar is
    called twice, the packed call and then the other, both with this line
    and this state; and the string returned is the HTML of the lines'
    segments, joined by one newline character, between ["<pre><code>"] and
    ["</code></pre>"]. *)
Theorem highlightText_spec `{Builtins} `{Textmate}
    (classes : JSMap.t) (colors : list (option string)) (σ : store) (next : loc)
    (text : list string) (language : GrammarKey) (grammar : IGrammar) :
  loadGrammar language = Some grammar ->
  let this := {| classNameMap := Some classes; colorMap := Some colors |} in
  let states := line_states grammar text INITIAL in
  length states = length text
  /\ (forall line : string, text !! 0%nat = Some line -> states !! 0%nat = Some INITIAL)
  /\ (forall (i : nat) (line : string) (state : StackElement),
       text !! i = Some line -> states !! i = Some state -> (S i < length text)%nat ->
       states !! S i
       = Some (ITokenizeLineResult.ruleStack (tokenizeLine2 grammar line state)))
  /\ highlightText this σ next text language
     = (flat_map calls_of (zip text states),
        inr ("<pre><code>"
             +:+ String.concat newline (map (line_html classes colors grammar) (zip text states))
             +:+ "</code></pre>")).
Proof.
  intros Hload this states.
  split; [apply line_states_length|].
  split; [intros line Hline; destruct text; [discriminate|reflexivity]|].
  split; [apply line_states_next|].
  unfold highlightText. rewrite Hload.
  subst this. rewrite highlight_lines_loaded. reflexivity.
Qed.

Lemma highlightText_spec_witness :
  @highlightText ascii_builtins (example_textmate metadata_fg1_bold) example_highlighter
    empty_store 0%nat ["ab"; "c d"] JAVASCRIPT
  = ([@Call_tokenizeLine2 (example_textmate metadata_fg1_bold) "ab" 0%nat;
      @Call_tokenizeLine (example_textmate metadata_fg1_bold) "ab" 0%nat;
      @Call_tokenizeLine2 (example_textmate metadata_fg1_bold) "c d" 1%nat;
      @Call_tokenizeLine (example_textmate metadata_fg1_bold) "c d" 1%nat],
     inr ("<pre><code><span class=" +:+ dquote +:+ "mtk0 mtkb" +:+ dquote +:+ ">ab</span>"
          +:+ newline
          +:+ "<span class=" +:+ dquote +:+ "mtk0 mtkb" +:+ dquote +:+ ">c d</span>"
          +:+ "</code></pre>")).
Proof.
  etransitivity.
  - apply (proj2 (proj2 (proj2
      (@highlightText_spec ascii_builtins (example_textmate metadata_fg1_bold)
         [("#000000", "mtk0")] [None; Some "#000000"] empty_store 0%nat
         ["ab"; "c d"] JAVASCRIPT tt eq_refl)))).
  - vm_compute. reflexivity.
Defined.

(** ** A foreground id without a class *)

(** A run in which the decoded foreground id, 5, is beyond the colour
    table: no exception is thrown, and the span comes out with an empty
    class attribute. *)
Lemma missing_class_is_silent :
  getForeground (Some metadata_fg5) = 5
  /\ array_get [None; Some "#000000"] 5 ≫= JSMap.get [("#000000", "mtk0")] = None
  /\ @highlightText ascii_builtins (example_textmate metadata_fg5) example_highlighter
       empty_store 0%nat ["ab"] JAVASCRIPT
     = ([@Call_tokenizeLine2 (example_textmate metadata_fg5) "ab" 0%nat;
         @Call_tokenizeLine (example_textmate metadata_fg5) "ab" 0%nat],
        inr ("<pre><code><span class=" +:+ dquote +:+ dquote +:+ ">ab</span></code></pre>"))
  /\ ~ (exists e : exn,
         (@highlightText ascii_builtins (example_textmate metadata_fg5) example_highlighter
            empty_store 0%nat ["ab"] JAVASCRIPT).2 = inl e).
Proof.
  split; [reflexivity|]. split; [reflexivity|]. split; [vm_compute; reflexivity|].
  intros [e He]. vm_compute in He. discriminate.
Qed.

Lemma join_undefined_first (sep : string) (flags : list string) :
  Str.join sep (None :: map Some flags) = String.concat sep (EmptyString :: flags).
Proof.
  unfold Str.join. cbn [map default]. f_equal. f_equal.
  induction flags as [|flag flags IH]; [reflexivity|].
  cbn [map default]. rewrite IH. reflexivity.
Qed.

(** C9, as the code has it. With the theme loaded and a loadable grammar,
    [highlightText] never throws. When the foreground id decoded for a token
    has no entry in the colour table, or its colour none in the class map,
    the first class name of the token's segment is [undefined], followed by
    the style flags in the order bold, italic, underline; in the class
    attribute [undefined] reads as the empty string. *)
Theorem missing_class_is_undefined `{Builtins} `{Textmate}
    (classes : JSMap.t) (colors : list (option string)) (σ : store) (next : loc)
    (text : list string) (language : GrammarKey) (grammar : IGrammar) :
  loadGrammar language = Some grammar ->
  let this := {| classNameMap := Some classes; colorMap := Some colors |} in
  (exists html : string, (highlightText this σ next text language).2 = inr html)
  /\ (forall (binary_tokens : list Z) (token : IToken.t),
       let metadata :=
         getTokenDataFromMetadata
           (getMetaAtPosition binary_tokens (IToken.startIndex token)) in
       array_get colors (DecodedTokenMeta.foreground metadata) ≫= JSMap.get classes = None ->
       let flags :=
         (if DecodedTokenMeta.bold metadata then ["mtkb"] else [])
         ++ (if DecodedTokenMeta.italic metadata then ["mtki"] else [])
         ++ (if DecodedTokenMeta.underline metadata then ["mtku"] else []) in
       token_classNames this binary_tokens token = inr (None :: map Some flags)
       /\ Str.join " " (None :: map Some flags) = String.concat " " (EmptyString :: flags)).
Proof.
  intros Hload this. split.
  - unfold highlightText. rewrite Hload. subst this.
    rewrite highlight_lines_loaded. eexists. reflexivity.
  - intros binary_tokens token metadata Hmissing flags.
    split; [|apply join_undefined_first].
    subst this. rewrite token_classNames_loaded. unfold class_names_of.
    fold metadata. rewrite Hmissing. subst flags.
    destruct (DecodedTokenMeta.bold metadata), (DecodedTokenMeta.italic metadata),
      (DecodedTokenMeta.underline metadata); reflexivity.
Qed.

Lemma missing_class_is_undefined_witness :
  @token_classNames example_highlighter [0; metadata_fg5]
     {| IToken.startIndex := 0; IToken.endIndex := 2; IToken.scopes := [] |}
  = inr [None].
Proof.
  apply (proj1 (proj2
    (@missing_class_is_undefined ascii_builtins (example_textmate metadata_fg5)
       [("#000000", "mtk0")] [None; Some "#000000"] empty_store 0%nat
       ["ab"] JAVASCRIPT tt eq_refl) [0; metadata_fg5]
       {| IToken.startIndex := 0; IToken.endIndex := 2; IToken.scopes := [] |}
       eq_refl)).
Defined.

(** * Further properties *)

(** ** Decoding reads two fields only *)

Lemma shiftr_land_field (m mask_width offset : Z) :
  0 <= mask_width -> 0 <= offset ->
  Z.shiftr (Z.land m (Z.shiftl (Z.ones mask_width) offset)) offset
  = (m / 2 ^ offset) mod 2 ^ mask_width.
Proof.
  intros Hw Ho.
  rewrite Z.shiftr_land, Z.shiftr_shiftl_l by lia.
  rewrite Z.sub_diag, Z.shiftl_0_r, Z.land_ones by lia.
  rewrite Z.shiftr_div_pow2 by lia. reflexivity.
Qed.

Lemma getForeground_field (m : Z) : getForeground (Some m) = (m / 2 ^ 14) mod 2 ^ 9.
Proof.
  rewrite getForeground_eq.
  change 0x7FC000 with (Z.shiftl (Z.ones 9) 14).
  apply shiftr_land_field; lia.
Qed.

Lemma getFontStyle_field (m : Z) : getFontStyle (Some m) = (m / 2 ^ 11) mod 2 ^ 3.
Proof.
  rewrite getFontStyle_eq.
  change 0x3800 with (Z.shiftl (Z.ones 3) 11).
  apply shiftr_land_field; lia.
Qed.

(** What is decoded is a function of the two fields. *)
Lemma getTokenDataFromMetadata_fields (metadata metadata' : option Z) :
  getForeground metadata = getForeground metadata' ->
  getFontStyle metadata = getFontStyle metadata' ->
  getTokenDataFromMetadata metadata = getTokenDataFromMetadata metadata'.
Proof.
  intros Hfg Hfs. unfold getTokenDataFromMetadata. rewrite Hfg, Hfs. reflexivity.
Qed.

(** X1. Decoding ignores the language id, the token type and the background:
    two packed values that agree on the bits 11 to 22 decode to the same
    record, and so does a packed value and what is left of it under the mask
    of these bits. *)
Theorem getTokenDataFromMetadata_ignores_other_fields (m m' : Z) :
  getTokenDataFromMetadata (Some (Z.land m 0x7FF800)) = getTokenDataFromMetadata (Some m)
  /\ (Z.land m 0x7FF800 = Z.land m' 0x7FF800 ->
      getTokenDataFromMetadata (Some m) = getTokenDataFromMetadata (Some m')).
Proof.
  assert (Hmask : forall x,
    getTokenDataFromMetadata (Some (Z.land x 0x7FF800)) = getTokenDataFromMetadata (Some x)).
  { intros x. apply getTokenDataFromMetadata_fields.
    - rewrite !getForeground_eq, <- Z.land_assoc. reflexivity.
    - rewrite !getFontStyle_eq, <- Z.land_assoc. reflexivity. }
  split; [apply Hmask|].
  intros Heq. rewrite <- (Hmask m), <- (Hmask m'), Heq. reflexivity.
Qed.

Lemma getTokenDataFromMetadata_ignores_other_fields_witness :
  getTokenDataFromMetadata (Some (0xFF800000 + 3 * 2 ^ 14 + 2 ^ 11 + 0x7FF))
  = getTokenDataFromMetadata (Some (3 * 2 ^ 14 + 2 ^ 11)).
Proof.
  apply (proj2 (getTokenDataFromMetadata_ignores_other_fields
                  (0xFF800000 + 3 * 2 ^ 14 + 2 ^ 11 + 0x7FF) (3 * 2 ^ 14 + 2 ^ 11))).
  reflexivity.
Defined.

(** X2. Packing and decoding: for a language id, a token type, a font style,
    a foreground and a background within their widths, laid out as the
    comment above [MetadataConsts] draws them, decoding gives back the
    foreground and the three flags of the font style. *)
Theorem getTokenDataFromMetadata_of_fields (languageId tokenType fontStyle fg bg : Z) :
  0 <= languageId < 2 ^ 8 -> 0 <= tokenType < 2 ^ 3 -> 0 <= fontStyle < 2 ^ 3 ->
  0 <= fg < 2 ^ 9 -> 0 <= bg < 2 ^ 9 ->
  let metadata :=
    languageId + tokenType * 2 ^ 8 + fontStyle * 2 ^ 11 + fg * 2 ^ 14 + bg * 2 ^ 23 in
  let d := getTokenDataFromMetadata (Some metadata) in
  0 <= metadata < 2 ^ 32
  /\ DecodedTokenMeta.foreground d = fg
  /\ DecodedTokenMeta.italic d = Z.testbit fontStyle 0
  /\ DecodedTokenMeta.bold d = Z.testbit fontStyle 1
  /\ DecodedTokenMeta.underline d = Z.testbit fontStyle 2.
Proof.
  intros Hl Ht Hs Hf Hb metadata d.
  assert (Hfg : getForeground (Some metadata) = fg).
  { rewrite getForeground_field. subst metadata.
    replace (languageId + tokenType * 2 ^ 8 + fontStyle * 2 ^ 11 + fg * 2 ^ 14 + bg * 2 ^ 23)
      with ((languageId + tokenType * 2 ^ 8 + fontStyle * 2 ^ 11) + (fg + bg * 2 ^ 9) * 2 ^ 14)
      by lia.
    rewrite Z.div_add by lia.
    rewrite (Z.div_small (languageId + tokenType * 2 ^ 8 + fontStyle * 2 ^ 11)) by lia.
    rewrite Z.add_0_l, Z.mod_add by lia. apply Z.mod_small. lia. }
  assert (Hfs : getFontStyle (Some metadata) = fontStyle).
  { rewrite getFontStyle_field. subst metadata.
    replace (languageId + tokenType * 2 ^ 8 + fontStyle * 2 ^ 11 + fg * 2 ^ 14 + bg * 2 ^ 23)
      with ((languageId + tokenType * 2 ^ 8) + (fontStyle + (fg + bg * 2 ^ 9) * 2 ^ 3) * 2 ^ 11)
      by lia.
    rewrite Z.div_add by lia.
    rewrite (Z.div_small (languageId + tokenType * 2 ^ 8)) by lia.
    rewrite Z.add_0_l, Z.mod_add by lia. apply Z.mod_small. lia. }
  split; [subst metadata; lia|].
  split; [exact Hfg|].
  pose proof (flag_testbit fontStyle ltac:(lia)) as (Hi & Hbold & Hu).
  subst d. unfold getTokenDataFromMetadata.
  cbn [DecodedTokenMeta.italic DecodedTokenMeta.bold DecodedTokenMeta.underline].
  rewrite Hfs. auto.
Qed.

Lemma getTokenDataFromMetadata_of_fields_witness :
  DecodedTokenMeta.foreground
    (getTokenDataFromMetadata (Some (1 + 2 * 2 ^ 8 + 5 * 2 ^ 11 + 300 * 2 ^ 14 + 7 * 2 ^ 23)))
  = 300.
Proof.
  apply (getTokenDataFromMetadata_of_fields 1 2 5 300 7); lia.
Defined.

(** ** Class names tell numbers apart *)

Lemma to_int_proper (x : Z) :
  Z.to_int x <> Decimal.Pos Decimal.Nil /\ Z.to_int x <> Decimal.Neg Decimal.Nil.
Proof.
  destruct x as [|p|p]; simpl; split; try discriminate;
    intros [= Hnil]; exact (DecimalPos.Unsigned.to_uint_nonnil p Hnil).
Qed.

Lemma toString_inj (x y : Z) : JS.toString x = JS.toString y -> x = y.
Proof.
  unfold JS.toString. intros Heq.
  apply DecimalZ.to_int_inj.
  destruct (to_int_proper x) as [Hx Hx'], (to_int_proper y) as [Hy Hy'].
  pose proof (NilZero.isi _ Hx Hx') as Hix.
  pose proof (NilZero.isi _ Hy Hy') as Hiy.
  rewrite Heq in Hix. congruence.
Qed.

Lemma string_app_inv_head (p s1 s2 : string) : p +:+ s1 = p +:+ s2 -> s1 = s2.
Proof.
  induction p as [|c p IH]; [tauto|].
  rewrite !string_app_cons. intros [= H]. apply IH, H.
Qed.

Lemma mtk_inj (x y : Z) : "mtk" +:+ JS.toString x = "mtk" +:+ JS.toString y -> x = y.
Proof. intros H. apply toString_inj, (string_app_inv_head "mtk"), H. Qed.

(** X3. The first class name that decoding gives tells the foreground: two
    packed values get the same first class name exactly when their
    foreground fields are equal. *)
Theorem getTokenDataFromMetadata_class_of_foreground (m m' : Z) :
  head (DecodedTokenMeta.classNames (getTokenDataFromMetadata (Some m)))
  = head (DecodedTokenMeta.classNames (getTokenDataFromMetadata (Some m')))
  <-> Z.land m 0x7FC000 = Z.land m' 0x7FC000.
Proof.
  assert (Hhead : forall x,
    head (DecodedTokenMeta.classNames (getTokenDataFromMetadata (Some x)))
    = Some ("mtk" +:+ JS.toString (getForeground (Some x)))).
  { intros x. unfold getTokenDataFromMetadata. cbn [DecodedTokenMeta.classNames].
    destruct (JS.truthy (JS.band (getFontStyle (Some x)) FontStyle.Italic));
      destruct (JS.truthy (JS.band (getFontStyle (Some x)) FontStyle.Bold));
      destruct (JS.truthy (JS.band (getFontStyle (Some x)) FontStyle.Underline));
      reflexivity. }
  rewrite !Hhead, !getForeground_eq. split.
  - intros H. apply (inj Some), mtk_inj in H.
    pose proof (land_mask_bounds m 0x7FC000 ltac:(lia)) as Hm.
    pose proof (land_mask_bounds m' 0x7FC000 ltac:(lia)) as Hm'.
    apply Z.bits_inj'. intros n Hn.
    destruct (Z.lt_ge_cases n 14) as [Hlt|Hge].
    + rewrite !Z.land_spec.
      replace (Z.testbit 0x7FC000 n) with false; [rewrite !andb_false_r; reflexivity|].
      symmetry. change 0x7FC000 with (Z.shiftl (Z.ones 9) 14).
      apply Z.shiftl_spec_low. exact Hlt.
    + apply (f_equal (fun z => Z.testbit z (n - 14))) in H.
      rewrite !Z.shiftr_spec in H by lia.
      replace (n - 14 + 14) with n in H by lia. exact H.
  - intros ->. reflexivity.
Qed.

(** ** What the lookup can return *)

Lemma last_elem_Some {A} (arr : list A) : arr <> [] -> exists x, last_elem arr = Some x /\ x ∈ arr.
Proof.
  intros Hne. unfold last_elem.
  destruct arr as [|a arr _] using rev_ind; [contradiction|].
  rewrite length_app. simpl. rewrite Nat.add_1_r.
  exists a. split.
  - apply list_lookup_middle. reflexivity.
  - apply elem_of_app. right. apply list_elem_of_singleton. reflexivity.
Qed.

(** The loop either runs to its end or stops at a pair whose interval holds
    the position. *)
Lemma getMetaAtPosition_from_cases (tokens : list Z) (position : Z) :
  forall (n j : nat), (length tokens - 2 * j <= n)%nat ->
    getMetaAtPosition_from tokens position (2 * j) = last_elem tokens
    \/ exists k, (j <= k)%nat /\ interval_contains tokens position k = true
                 /\ getMetaAtPosition_from tokens position (2 * j) = tokens !! (2 * k + 1)%nat.
Proof.
  induction n as [|n IH]; intros j Hn; rewrite getMetaAtPosition_from_body.
  - destruct (decide (2 * j < length tokens)%nat); [lia|]. left. reflexivity.
  - destruct (decide (2 * j < length tokens)%nat) as [Hlt|Hge]; [|left; reflexivity].
    rewrite loop_test_interval.
    destruct (interval_contains tokens position j) eqn:Hj.
    + right. exists j. auto.
    + replace (2 * j + 2)%nat with (2 * S j)%nat by lia.
      destruct (IH (S j) ltac:(lia)) as [Hlast|(k & Hk & Hin & Hres)].
      * left. exact Hlast.
      * right. exists k. split; [lia|]. auto.
Qed.

(** X4. On a stream that is not empty the lookup never returns [undefined]:
    it returns an element of the stream, which is the last one or the
    metadata of a pair whose interval holds the position. *)
Theorem getMetaAtPosition_defined (tokens : list Z) (position : Z) :
  tokens <> [] ->
  exists value : Z,
    getMetaAtPosition tokens position = Some value
    /\ value ∈ tokens
    /\ (last_elem tokens = Some value
        \/ exists k, interval_contains tokens position k = true
                     /\ tokens !! (2 * k + 1)%nat = Some value).
Proof.
  intros Hne. unfold getMetaAtPosition.
  destruct (getMetaAtPosition_from_cases tokens position (length tokens) 0 ltac:(lia))
    as [Hlast|(k & _ & Hin & Hres)]; change (2 * 0)%nat with 0%nat in *.
  - destruct (last_elem_Some tokens Hne) as (x & Hx & Hmem).
    exists x. rewrite Hlast. auto.
  - assert (Hlt : (2 * k + 2 < length tokens)%nat).
    { unfold interval_contains in Hin.
      destruct (tokens !! (2 * k)%nat); [|discriminate].
      destruct (tokens !! (2 * k + 2)%nat) eqn:He; [|discriminate].
      apply lookup_lt_Some in He. exact He. }
    destruct (lookup_lt_is_Some_2 tokens (2 * k + 1)%nat ltac:(lia)) as [v Hv].
    exists v. rewrite Hres. split; [exact Hv|]. split.
    + apply list_elem_of_lookup. exists (2 * k + 1)%nat. exact Hv.
    + right. exists k. auto.
Qed.

Lemma getMetaAtPosition_defined_witness :
  exists value : Z, getMetaAtPosition [0; 11; 5; 22] 7 = Some value /\ value ∈ [0; 11; 5; 22].
Proof.
  destruct (getMetaAtPosition_defined [0; 11; 5; 22] 7 ltac:(discriminate))
    as (value & Hvalue & Hmem & _).
  exists value. auto.
Defined.

(** X5. A position that lies before every recorded offset is in no interval:
    the lookup returns the last element of the stream for it, not the
    metadata of the first pair. *)
Theorem getMetaAtPosition_before_first (tokens : list Z) (position : Z) :
  (forall (k : nat) (offset : Z), tokens !! (2 * k)%nat = Some offset -> position < offset) ->
  getMetaAtPosition tokens position = last_elem tokens.
Proof.
  intros Hbefore.
  destruct (getMetaAtPosition_from_search tokens position (length tokens) 0 ltac:(lia))
    as [_ Hnone].
  apply Hnone. intros k _. unfold interval_contains.
  destruct (tokens !! (2 * k)%nat) as [offset|] eqn:Ho; [|reflexivity].
  specialize (Hbefore k offset Ho).
  destruct (tokens !! (2 * k + 2)%nat); [|reflexivity].
  replace (offset <=? position) with false by (symmetry; apply Z.leb_gt; lia).
  reflexivity.
Qed.

Lemma getMetaAtPosition_before_first_witness :
  getMetaAtPosition [3; 11; 5; 22; 9; 33] 1 = Some 33.
Proof.
  apply (getMetaAtPosition_before_first [3; 11; 5; 22; 9; 33] 1).
  intros k offset Hk.
  assert (Hlt : (2 * k < 6)%nat) by (apply lookup_lt_Some in Hk; exact Hk).
  assert (Hcases : (k = 0 \/ k = 1 \/ k = 2)%nat) by lia.
  destruct Hcases as [-> | [-> | ->]]; simpl in Hk; inversion Hk; lia.
Defined.

(** ** More on the merge pass *)

(** X6. [arraysAreEqual] decides equality of two arrays of class names, an
    [undefined] element being equal to itself only; so it does not depend on
    the order of its arguments. *)
Theorem arraysAreEqual_decides_equality (a b : list (option string)) :
  (arraysAreEqual a b = true <-> a = b)
  /\ arraysAreEqual a b = arraysAreEqual b a.
Proof.
  split; [apply arraysAreEqual_eq|].
  destruct (arraysAreEqual a b) eqn:Hab, (arraysAreEqual b a) eqn:Hba; try reflexivity.
  - apply arraysAreEqual_eq in Hab. subst b.
    rewrite (proj2 (arraysAreEqual_eq a a) eq_refl) in Hba. discriminate.
  - apply arraysAreEqual_eq in Hba. subst b.
    rewrite (proj2 (arraysAreEqual_eq a a) eq_refl) in Hab. discriminate.
Qed.

Lemma run_sublist (σ : store) (pre : list loc) :
  Merge.mergedSegments (Merge.run (Merge.init σ) pre) `sublist_of` pre
  /\ head (Merge.mergedSegments (Merge.run (Merge.init σ) pre)) = head pre.
Proof.
  induction pre as [|segment pre [IHsub IHhead]] using rev_ind.
  - split; [constructor|reflexivity].
  - rewrite run_snoc.
    assert (Hpush :
      Merge.mergedSegments (Merge.push (Merge.run (Merge.init σ) pre) segment)
        `sublist_of` (pre ++ [segment])
      /\ head (Merge.mergedSegments (Merge.push (Merge.run (Merge.init σ) pre) segment))
         = head (pre ++ [segment])).
    { cbn [Merge.push Merge.mergedSegments]. split.
      - apply sublist_app; [exact IHsub|reflexivity].
      - destruct pre as [|p pre].
        + apply sublist_nil_r in IHsub. rewrite IHsub. reflexivity.
        + destruct (Merge.mergedSegments (Merge.run (Merge.init σ) (p :: pre)));
            [discriminate|exact IHhead]. }
    unfold Merge.step.
    destruct (Merge.previousSegment (Merge.run (Merge.init σ) pre)) as [previous|] eqn:Hprev;
      [|exact Hpush].
    destruct (Merge.mergeable _ previous segment); [|exact Hpush].
    cbn [Merge.mergedSegments]. split.
    + apply sublist_inserts_r, IHsub.
    + rewrite IHhead. destruct pre as [|p pre]; [|reflexivity].
      discriminate.
Qed.

(** X7. The merged array is the given array with some segments left out: it
    keeps their order and holds no other object; it begins with the same
    segment, and is empty only for the empty array. *)
Theorem mergeConsecutiveSegments_sublist (σ : store) (segments : list loc) :
  let merged := (mergeConsecutiveSegments σ segments).2 in
  merged `sublist_of` segments
  /\ head merged = head segments
  /\ (length merged <= length segments)%nat
  /\ (merged = [] <-> segments = []).
Proof.
  intros merged. destruct (run_sublist σ segments) as [Hsub Hhead].
  change (Merge.mergedSegments (Merge.run (Merge.init σ) segments)) with merged in Hsub, Hhead.
  split; [exact Hsub|]. split; [exact Hhead|].
  split; [apply sublist_length, Hsub|].
  split.
  - intros Hnil. rewrite Hnil in Hhead. destruct segments; [reflexivity|discriminate].
  - intros Hnil. rewrite Hnil in Hsub. apply sublist_nil_r, Hsub.
Qed.

Lemma run_frame (σ : store) (pre : list loc) :
  forall l : loc,
    ParsedLine.start (Merge.heap (Merge.run (Merge.init σ) pre) l) = ParsedLine.start (σ l)
    /\ ParsedLine.classNames (Merge.heap (Merge.run (Merge.init σ) pre) l)
       = ParsedLine.classNames (σ l)
    /\ (l ∉ Merge.mergedSegments (Merge.run (Merge.init σ) pre) ->
        Merge.heap (Merge.run (Merge.init σ) pre) l = σ l).
Proof.
  induction pre as [|segment pre IH] using rev_ind; intros l.
  - simpl. auto.
  - rewrite run_snoc.
    pose proof (previousSegment_last σ pre) as Hlast.
    destruct (IH l) as (IHs & IHc & IHu).
    assert (Hpush :
      forall st', st' = Merge.push (Merge.run (Merge.init σ) pre) segment ->
      ParsedLine.start (Merge.heap st' l) = ParsedLine.start (σ l)
      /\ ParsedLine.classNames (Merge.heap st' l) = ParsedLine.classNames (σ l)
      /\ (l ∉ Merge.mergedSegments st' -> Merge.heap st' l = σ l)).
    { intros st' ->. cbn [Merge.push Merge.heap Merge.mergedSegments].
      split; [exact IHs|]. split; [exact IHc|].
      intros Hnotin. apply IHu. intros Hin. apply Hnotin, elem_of_app. left. exact Hin. }
    unfold Merge.step.
    destruct (Merge.previousSegment (Merge.run (Merge.init σ) pre)) as [previous|] eqn:Hprev;
      [|apply Hpush; reflexivity].
    destruct (Merge.mergeable _ previous segment); [|apply Hpush; reflexivity].
    cbn [Merge.heap Merge.mergedSegments].
    destruct (decide (l = previous)) as [->|Hne].
    + rewrite fn_lookup_insert. cbn [ParsedLine.set_end ParsedLine.start ParsedLine.classNames].
      split; [exact IHs|]. split; [exact IHc|].
      intros Hnotin. exfalso. apply Hnotin.
      symmetry in Hlast. apply last_Some_snoc in Hlast. rewrite Hlast.
      apply elem_of_app. right. apply list_elem_of_singleton. reflexivity.
    + rewrite fn_lookup_insert_ne by congruence. auto.
Qed.

(** X8. The merge pass writes nothing but the [end] of segments that it
    keeps: of every object the [start] and the class names stay as they
    were, and an object that is not in the merged array, in the given array
    or outside it, is left as it was. *)
Theorem mergeConsecutiveSegments_frame (σ : store) (segments : list loc) (l : loc) :
  let σ' := (mergeConsecutiveSegments σ segments).1 in
  let merged := (mergeConsecutiveSegments σ segments).2 in
  ParsedLine.start (σ' l) = ParsedLine.start (σ l)
  /\ ParsedLine.classNames (σ' l) = ParsedLine.classNames (σ l)
  /\ (l ∉ merged -> σ' l = σ l).
Proof. intros σ' merged. apply run_frame. Qed.

(** X9. Where no two neighbours of the given array abut with equal class
    names, the pass merges nothing: it returns the array as it is and
    leaves the store as it is. *)
Theorem mergeConsecutiveSegments_nothing_to_merge (σ : store) (segments : list loc) :
  (forall (i : nat) (a b : loc),
     segments !! i = Some a -> segments !! S i = Some b ->
     ~ (ParsedLine.end_ (σ a) = ParsedLine.start (σ b)
        /\ ParsedLine.classNames (σ a) = ParsedLine.classNames (σ b))) ->
  mergeConsecutiveSegments σ segments = (σ, segments).
Proof.
  intros Hno. unfold mergeConsecutiveSegments.
  rewrite (run_no_merge segments (Merge.init σ)); [reflexivity|reflexivity|].
  cbn [Merge.init Merge.heap Merge.mergedSegments app].
  intros i va vb Ha Hb. unfold read in Ha, Hb.
  rewrite list_lookup_fmap in Ha, Hb.
  destruct (segments !! i) as [a|] eqn:Hia; [|discriminate].
  destruct (segments !! S i) as [b|] eqn:Hib; [|discriminate].
  injection Ha as <-. injection Hb as <-.
  destruct (MergeValues.mergeable (σ a) (σ b)) eqn:Hm; [exfalso|reflexivity].
  rewrite <- mergeable_values in Hm. apply mergeable_true in Hm as [Hend Hcls].
  apply (Hno i a b Hia Hib). split; [exact Hend|]. apply elementwise_equal_eq, Hcls.
Qed.

Lemma mergeConsecutiveSegments_nothing_to_merge_witness :
  let segments := [segment_of 0 1 ["mtk4"]; segment_of 1 2 ["mtk0"]; segment_of 3 4 ["mtk0"]] in
  mergeConsecutiveSegments (fresh segments).1 (fresh segments).2
  = ((fresh segments).1, [0; 1; 2]%nat).
Proof.
  intros segments.
  apply (mergeConsecutiveSegments_nothing_to_merge (fresh segments).1 [0; 1; 2]%nat).
  intros i a b Ha Hb [Hend Hcls].
  assert (Hlt : (S i < 3)%nat) by (apply lookup_lt_Some in Hb; exact Hb).
  assert (Hcases : (i = 0 \/ i = 1)%nat) by lia.
  destruct Hcases as [-> | ->]; simpl in Ha, Hb; inversion Ha; inversion Hb; subst;
    simpl in Hend, Hcls; [discriminate Hcls|lia].
Defined.

Lemma run_chain (σ : store) (s0 : loc) (rest : list loc) :
  NoDup (s0 :: rest) ->
  (forall (i : nat) (a b : loc),
     (s0 :: rest) !! i = Some a -> (s0 :: rest) !! S i = Some b ->
     ParsedLine.end_ (σ a) = ParsedLine.start (σ b)
     /\ ParsedLine.classNames (σ a) = ParsedLine.classNames (σ b)) ->
  let st := Merge.run (Merge.init σ) (s0 :: rest) in
  Merge.mergedSegments st = [s0]
  /\ Merge.previousSegment st = Some s0
  /\ ParsedLine.end_ (Merge.heap st s0) = ParsedLine.end_ (σ (default s0 (last rest)))
  /\ ParsedLine.classNames (σ s0) = ParsedLine.classNames (σ (default s0 (last rest))).
Proof.
  induction rest as [|x rest IH] using rev_ind; intros Hnodup Hchain st.
  - subst st. simpl. auto.
  - assert (Hnodup' : NoDup (s0 :: rest)).
    { rewrite app_comm_cons in Hnodup. apply NoDup_app in Hnodup. tauto. }
    assert (Hx : x <> s0).
    { intros ->. apply NoDup_cons in Hnodup as [Hnotin _]. apply Hnotin.
      apply elem_of_app. right. apply list_elem_of_singleton. reflexivity. }
    assert (Hchain' : forall (i : nat) (a b : loc),
              (s0 :: rest) !! i = Some a -> (s0 :: rest) !! S i = Some b ->
              ParsedLine.end_ (σ a) = ParsedLine.start (σ b)
              /\ ParsedLine.classNames (σ a) = ParsedLine.classNames (σ b)).
    { intros i a b Ha Hb. apply (Hchain i a b).
      - rewrite app_comm_cons. apply lookup_app_l_Some, Ha.
      - rewrite app_comm_cons. apply lookup_app_l_Some, Hb. }
    destruct (IH Hnodup' Hchain') as (IHm & IHp & IHe & IHc).
    assert (Hlink : ParsedLine.end_ (σ (default s0 (last rest))) = ParsedLine.start (σ x)
                    /\ ParsedLine.classNames (σ (default s0 (last rest)))
                       = ParsedLine.classNames (σ x)).
    { apply (Hchain (length rest)).
      - rewrite app_comm_cons, lookup_app_l by (simpl; lia).
        destruct rest as [|y rest' _] using rev_ind; [reflexivity|].
        rewrite last_snoc. cbn [default].
        rewrite app_comm_cons, length_app. cbn [length].
        replace (length rest' + 1)%nat with (length (s0 :: rest')) by (simpl; lia).
        apply list_lookup_middle. reflexivity.
      - change (S (length rest)) with (length (s0 :: rest)).
        rewrite app_comm_cons. apply list_lookup_middle. reflexivity. }
    destruct Hlink as [Hend Hcls].
    destruct (run_frame σ (s0 :: rest) x) as (Hxs & Hxc & Hxu).
    destruct (run_frame σ (s0 :: rest) s0) as (_ & H0c & _).
    assert (Hxsame : Merge.heap (Merge.run (Merge.init σ) (s0 :: rest)) x = σ x).
    { apply Hxu. rewrite IHm. intros Hin. apply list_elem_of_singleton in Hin. contradiction. }
    subst st. rewrite app_comm_cons, run_snoc. unfold Merge.step. rewrite IHp.
    assert (Hm : Merge.mergeable (Merge.heap (Merge.run (Merge.init σ) (s0 :: rest))) s0 x = true).
    { apply mergeable_true. split.
      - rewrite IHe, Hxs. exact Hend.
      - apply elementwise_equal_eq. rewrite H0c, Hxc, IHc. exact Hcls. }
    rewrite Hm. cbn [Merge.mergedSegments Merge.previousSegment Merge.heap].
    rewrite fn_lookup_insert, last_snoc. cbn [ParsedLine.set_end ParsedLine.end_ default].
    rewrite Hxsame, IHc. auto.
Qed.

(** X10. A run of distinct segments in which each one ends where the next
    starts and has the class names of the next is merged into its first
    object: the merged array is that one object, which keeps its [start]
    and class names and takes the [end] of the last segment of the run. *)
Theorem mergeConsecutiveSegments_chain (σ : store) (s0 : loc) (rest : list loc) :
  NoDup (s0 :: rest) ->
  (forall (i : nat) (a b : loc),
     (s0 :: rest) !! i = Some a -> (s0 :: rest) !! S i = Some b ->
     ParsedLine.end_ (σ a) = ParsedLine.start (σ b)
     /\ ParsedLine.classNames (σ a) = ParsedLine.classNames (σ b)) ->
  let σ' := (mergeConsecutiveSegments σ (s0 :: rest)).1 in
  (mergeConsecutiveSegments σ (s0 :: rest)).2 = [s0]
  /\ σ' s0 = {| ParsedLine.start := ParsedLine.start (σ s0);
                ParsedLine.end_ := ParsedLine.end_ (σ (default s0 (last rest)));
                ParsedLine.classNames := ParsedLine.classNames (σ s0) |}.
Proof.
  intros Hnodup Hchain σ'.
  destruct (run_chain σ s0 rest Hnodup Hchain) as (Hm & _ & He & _).
  destruct (run_frame σ (s0 :: rest) s0) as (Hs & Hc & _).
  split; [exact Hm|].
  subst σ'. unfold mergeConsecutiveSegments. cbn [fst].
  destruct (Merge.heap (Merge.run (Merge.init σ) (s0 :: rest)) s0) as [st en cl].
  cbn in Hs, Hc, He. subst. reflexivity.
Qed.

Lemma mergeConsecutiveSegments_chain_witness :
  let segments := [segment_of 0 1 ["mtk4"]; segment_of 1 3 ["mtk4"]; segment_of 3 7 ["mtk4"]] in
  (mergeConsecutiveSegments (fresh segments).1 (fresh segments).2).2 = [0%nat]
  /\ (mergeConsecutiveSegments (fresh segments).1 (fresh segments).2).1 0%nat
     = segment_of 0 7 ["mtk4"].
Proof.
  intros segments.
  apply (mergeConsecutiveSegments_chain (fresh segments).1 0%nat [1; 2]%nat).
  - compute_done.
  - intros i a b Ha Hb.
    assert (Hlt : (S i < 3)%nat) by (apply lookup_lt_Some in Hb; exact Hb).
    assert (Hcases : (i = 0 \/ i = 1)%nat) by lia.
    destruct Hcases as [-> | ->]; simpl in Ha, Hb; inversion Ha; inversion Hb; subst;
      split; reflexivity.
Defined.

(** ** Lines of white space *)

Lemma whitespace_only_substring (s : string) :
  whitespace_only s = true ->
  forall n m : nat, whitespace_only (substring n m s) = true.
Proof.
  induction s as [|c s IH]; intros Hs n m.
  - rewrite substring_nil. reflexivity.
  - simpl in Hs. apply andb_true_iff in Hs as [Hc Hs].
    destruct n as [|n]; destruct m as [|m]; simpl; try reflexivity.
    + rewrite Hc. simpl. apply IH, Hs.
    + apply IH, Hs.
    + apply IH, Hs.
Qed.

Lemma html_of_whitespace `{Builtins} (line : string) (l : list ParsedLine.t) :
  whitespace_only line = true -> html_of line l = covered_text line l.
Proof.
  intros Hline. unfold html_of, covered_text.
  induction l as [|v l IH]; [reflexivity|].
  cbn [map foldr]. rewrite IH. f_equal.
  unfold emitted.
  assert (Hw : whitespace_only (Str.slice line (ParsedLine.start v) (ParsedLine.end_ v)) = true)
    by (unfold Str.slice; apply whitespace_only_substring, Hline).
  rewrite Hw. reflexivity.
Qed.

(** X11. A line that is only white space is written without a span,
    whatever its segments and their class names are: the HTML is the text
    that the merged segments cover and, for distinct segments that are
    character ranges, the text that the given segments cover. *)
Theorem codeToHTML_whitespace_line `{Builtins} (line : string) (σ : store)
    (segments : list loc) :
  whitespace_only line = true ->
  let σ' := (mergeConsecutiveSegments σ segments).1 in
  let merged := (mergeConsecutiveSegments σ segments).2 in
  (codeToHTML σ line segments).2 = covered_text line (read σ' merged)
  /\ (NoDup segments -> Forall is_range (read σ segments) ->
      (codeToHTML σ line segments).2 = covered_text line (read σ segments)).
Proof.
  intros Hline σ' merged.
  assert (Hhtml : (codeToHTML σ line segments).2 = covered_text line (read σ' merged)).
  { unfold codeToHTML. subst σ' merged.
    destruct (mergeConsecutiveSegments σ segments) as [σ1 merged1].
    cbn [fst snd]. rewrite fold_codeToHTML_step.
    change (EmptyString +:+ ?s) with s. apply html_of_whitespace, Hline. }
  split; [exact Hhtml|].
  intros Hnodup Hrange. rewrite Hhtml. subst σ' merged.
  rewrite mergeConsecutiveSegments_read by exact Hnodup.
  apply MergeValues_run_covered, Hrange.
Qed.

Lemma codeToHTML_whitespace_line_witness :
  let segments := [segment_of 0 2 ["mtk1"]; segment_of 2 3 ["mtk2"; "mtkb"]] in
  (@codeToHTML ascii_builtins (fresh segments).1 "    " (fresh segments).2).2 = "   ".
Proof.
  intros segments.
  transitivity (covered_text "    " (read (fresh segments).1 (fresh segments).2)); [|reflexivity].
  apply (@codeToHTML_whitespace_line ascii_builtins "    " (fresh segments).1 (fresh segments).2).
  - reflexivity.
  - compute_done.
  - repeat constructor; unfold is_range; simpl; lia.
Defined.

(** ** The classes and the style sheet of a theme *)

Lemma numbered_lookup (keys : list string) (i : nat) (key : string) :
  keys !! i = Some key ->
  numbered keys !! i = Some (key, "mtk" +:+ JS.toString (Z.of_nat i)).
Proof. intros Hi. unfold numbered. rewrite list_lookup_imap, Hi. reflexivity. Qed.

Lemma numbered_classes_NoDup (keys : list string) : NoDup (map snd (numbered keys)).
Proof.
  apply NoDup_alt. intros i j className Hi Hj.
  change (map snd ?l) with (snd <$> l) in Hi, Hj.
  unfold numbered in Hi, Hj.
  rewrite list_lookup_fmap, list_lookup_imap in Hi, Hj.
  destruct (keys !! i); [|discriminate]. destruct (keys !! j); [|discriminate].
  cbn in Hi, Hj. apply (inj Some) in Hi, Hj. rewrite <- Hj in Hi.
  apply mtk_inj in Hi. lia.
Qed.

Lemma first_occurrences_length (l : list string) :
  (length (first_occurrences l) <= length l)%nat.
Proof.
  induction l as [|x l IH]; [reflexivity|].
  cbn [first_occurrences length].
  pose proof (length_filter (fun y => y <> x) (first_occurrences l)). lia.
Qed.

Lemma omap_length {A B} (f : A -> option B) (l : list A) :
  (length (omap f l) <= length l)%nat.
Proof.
  induction l as [|x l IH]; [reflexivity|].
  cbn [omap list_omap]. destruct (f x); cbn [length]; lia.
Qed.

(** X12. The class names of a theme are distinct, as its keys are; there is
    at most one class per entry of [tokenColors], and one more. Unless
    [colors["editor.foreground"]] is the empty string, the first class,
    [mtk0], is that of the default foreground in upper case. *)
Theorem createClassNameMap_classes `{Builtins} (theme : PublicTheme.t) :
  let classes := createClassNameMap theme in
  NoDup (map snd classes)
  /\ (length classes <= S (length (PublicTheme.tokenColors theme)))%nat
  /\ (PublicTheme.colors theme !! "editor.foreground" <> Some EmptyString ->
      head classes
      = Some (toUpperCase (default "#000000" (PublicTheme.colors theme !! "editor.foreground")),
              "mtk0")).
Proof.
  intros classes.
  assert (Hclasses : classes = numbered (first_occurrences (uppercased_foregrounds theme))).
  { subst classes. unfold createClassNameMap. rewrite createClassNameMap_fold. reflexivity. }
  rewrite Hclasses. split; [apply numbered_classes_NoDup|]. split.
  - unfold numbered. rewrite length_imap.
    etransitivity; [apply first_occurrences_length|].
    unfold uppercased_foregrounds.
    etransitivity; [apply omap_length|]. reflexivity.
  - intros Hfg. unfold uppercased_foregrounds.
    set (fg := default "#000000" (PublicTheme.colors theme !! "editor.foreground")).
    assert (Htruthy : Str.truthy fg = true).
    { unfold Str.truthy. apply negb_true_iff, String.eqb_neq. subst fg.
      destruct (PublicTheme.colors theme !! "editor.foreground") as [color|];
        cbn [default]; intros Heq; [apply Hfg; f_equal; exact Heq|discriminate Heq]. }
    assert (Hhead : uppercased_foreground (defaultTokenColors theme) = Some (toUpperCase fg)).
    { unfold uppercased_foreground, defaultTokenColors.
      cbn [IRawThemeSetting.foreground IRawThemeSetting.settings].
      fold fg. rewrite Htruthy. reflexivity. }
    cbn [omap list_omap]. rewrite Hhead. reflexivity.
Qed.

Lemma createClassNameMap_classes_witness :
  head (@createClassNameMap ascii_builtins example_theme) = Some ("#000000", "mtk0").
Proof.
  apply (proj2 (proj2 (@createClassNameMap_classes ascii_builtins example_theme))).
  vm_compute. discriminate.
Defined.

Lemma buildCSS_fold (map : JSMap.t) :
  forall css : string,
    fold_left (fun css entry => css +:+ buildCSS_rule entry) map css
    = css +:+ buildCSS_rules map.
Proof.
  induction map as [|entry map IH]; intros css.
  - symmetry. apply string_app_nil_r.
  - cbn [fold_left buildCSS_rules foldr]. rewrite IH. apply string_app_assoc.
Qed.

Lemma buildCSS_rules_app (m1 m2 : JSMap.t) :
  buildCSS_rules (m1 ++ m2) = buildCSS_rules m1 +:+ buildCSS_rules m2.
Proof.
  induction m1 as [|entry m1 IH]; [reflexivity|].
  cbn [app buildCSS_rules foldr]. fold (buildCSS_rules (m1 ++ m2)). fold (buildCSS_rules m1).
  rewrite IH, string_app_assoc. reflexivity.
Qed.

(** X13. Once [loadTheme] has read a theme, every setting that it hands to
    the registry and that has a non-empty foreground has a class in
    [cssMap], under that foreground in upper case, and the style sheet that
    [buildCSS] writes for [cssMap] has the colour rule of that class, after
    the three rules of the font styles. *)
Theorem loadTheme_styles `{Builtins} `{ThemeRegistry}
    (theme : PublicTheme.t) (this loaded : Highlighter)
    (token : IRawThemeSetting.t) (fg : string) :
  Highlighter_loadTheme (Some theme) this = Some loaded ->
  token ∈ IRawTheme.settings (convertThemeToRawTheme theme) ->
  IRawThemeSetting.foreground (IRawThemeSetting.settings token) = Some fg ->
  fg <> EmptyString ->
  exists (classes : JSMap.t) (className before after : string),
    cssMap loaded = Some classes
    /\ JSMap.get classes (toUpperCase fg) = Some className
    /\ buildCSS classes
       = buildCSS_static +:+ before
         +:+ ("." +:+ className +:+ " { color: " +:+ toUpperCase fg +:+ "; }" +:+ newline)
         +:+ after.
Proof.
  intros Hload Htoken Hfg Hne.
  cbn [Highlighter_loadTheme] in Hload. injection Hload as <-.
  cbn [convertThemeToRawTheme IRawTheme.settings] in Htoken.
  set (classes := createClassNameMap theme).
  assert (Hclasses : classes = numbered (first_occurrences (uppercased_foregrounds theme))).
  { subst classes. unfold createClassNameMap. rewrite createClassNameMap_fold. reflexivity. }
  assert (Hkey : toUpperCase fg ∈ first_occurrences (uppercased_foregrounds theme)).
  { apply first_occurrences_elem. unfold uppercased_foregrounds.
    apply list_elem_of_omap. exists token. split; [exact Htoken|].
    unfold uppercased_foreground. rewrite Hfg.
    assert (Htruthy : Str.truthy fg = true)
      by (apply negb_true_iff, String.eqb_neq, Hne).
    rewrite Htruthy. reflexivity. }
  apply list_elem_of_lookup in Hkey as [i Hi].
  pose proof (numbered_lookup _ i _ Hi) as Hentry. rewrite <- Hclasses in Hentry.
  exists classes, ("mtk" +:+ JS.toString (Z.of_nat i)),
    (buildCSS_rules (take i classes)), (buildCSS_rules (drop (S i) classes)).
  split; [reflexivity|]. split.
  - apply (JSMap_get_lookup classes i); [|exact Hentry].
    rewrite Hclasses, numbered_keys. apply first_occurrences_NoDup.
  - unfold buildCSS. rewrite buildCSS_fold.
    rewrite <- (take_drop_middle classes i _ Hentry) at 1.
    rewrite buildCSS_rules_app. cbn [buildCSS_rules foldr].
    fold (buildCSS_rules (drop (S i) classes)).
    unfold buildCSS_rule. cbn [fst snd].
    rewrite !string_app_assoc. reflexivity.
Qed.

Lemma loadTheme_styles_witness :
  exists (classes : JSMap.t) (className before after : string),
    classes = [("#000000", "mtk0"); ("#E06C75", "mtk1"); ("#98C379", "mtk2")]
    /\ JSMap.get classes "#98C379" = Some className
    /\ @buildCSS classes
       = buildCSS_static +:+ before
         +:+ ("." +:+ className +:+ " { color: " +:+ "#98C379" +:+ "; }" +:+ newline)
         +:+ after.
Proof.
  destruct (@loadTheme_styles ascii_builtins example_registry example_theme
              example_highlighter
              {| classNameMap := Some (@createClassNameMap ascii_builtins example_theme);
                 colorMap := Some (@getColorMap_after_setTheme example_registry
                                     (convertThemeToRawTheme example_theme)) |}
              (setting_of (Some "#98c379")) "#98c379")
    as (classes & className & before & after & Hmap & Hget & Hcss).
  - reflexivity.
  - apply list_elem_of_In. simpl. do 6 right. left. reflexivity.
  - reflexivity.
  - discriminate.
  - exists classes, className, before, after.
    split; [|split; [exact Hget|exact Hcss]].
    cbn [cssMap classNameMap] in Hmap. injection Hmap as <-. reflexivity.
Defined.

(** ** Highlighting without tokens, and without a theme *)

Lemma token_classNames_unloaded (this : Highlighter) (binary_tokens : list Z)
    (token : IToken.t) :
  classNameMap this = None \/ colorMap this = None ->
  token_classNames this binary_tokens token = inl TypeError.
Proof.
  intros Hun. unfold token_classNames.
  destruct (classNameMap this), (colorMap this), Hun; try discriminate; reflexivity.
Qed.

Lemma build_segments_unloaded (this : Highlighter) (binary_tokens : list Z)
    (full : list IToken.t) (σ : store) (next : loc) (segments : list loc) :
  classNameMap this = None \/ colorMap this = None ->
  full <> [] ->
  build_segments this binary_tokens full σ next segments = inl TypeError.
Proof.
  intros Hun Hfull. destruct full as [|token full]; [contradiction|].
  cbn [build_segments]. rewrite token_classNames_unloaded by exact Hun. reflexivity.
Qed.

Lemma highlight_lines_tokenless `{Builtins} `{Textmate} (this : Highlighter)
    (grammar : IGrammar) (text : list string) :
  forall (state : StackElement) (σ : store) (next : loc) (output : list string)
         (calls : list tokenizer_call),
    (forall (i : nat) (line : string) (st : StackElement),
       text !! i = Some line -> line_states grammar text state !! i = Some st ->
       ITokenizeLineResult.tokens (tokenizeLine grammar line st) = []) ->
    highlight_lines this grammar text state σ next output calls
    = (calls ++ flat_map calls_of (zip text (line_states grammar text state)),
       inr (output ++ map (fun _ => EmptyString) text)).
Proof.
  induction text as [|line text IH]; intros state σ next output calls Hnone.
  - simpl. rewrite !app_nil_r. reflexivity.
  - cbn [highlight_lines]. rewrite (Hnone 0%nat line state eq_refl eq_refl).
    cbn [build_segments].
    change (codeToHTML σ line []) with (σ, EmptyString). cbv beta iota zeta.
    rewrite IH.
    + cbn [line_states zip zip_with flat_map map].
      rewrite <- !app_assoc. reflexivity.
    + intros i line' st Hline Hst. apply (Hnone (S i) line' st); assumption.
Qed.

Lemma highlight_lines_unloaded `{Builtins} `{Textmate} (this : Highlighter)
    (grammar : IGrammar) (i : nat) :
  classNameMap this = None \/ colorMap this = None ->
  forall (text : list string) (state : StackElement) (σ : store) (next : loc)
         (output : list string) (calls : list tokenizer_call)
         (line : string) (st : StackElement),
    text !! i = Some line -> line_states grammar text state !! i = Some st ->
    ITokenizeLineResult.tokens (tokenizeLine grammar line st) <> [] ->
    (forall (j : nat) (line' : string) (st' : StackElement),
       (j < i)%nat ->
       text !! j = Some line' -> line_states grammar text state !! j = Some st' ->
       ITokenizeLineResult.tokens (tokenizeLine grammar line' st') = []) ->
    highlight_lines this grammar text state σ next output calls
    = (calls ++ flat_map calls_of (take (S i) (zip text (line_states grammar text state))),
       inl TypeError).
Proof.
  intros Hun. induction i as [|i IH];
    intros text state σ next output calls line st Hline Hst Htok Hbefore;
    (destruct text as [|line0 text]; [discriminate|]).
  - injection Hline as <-. injection Hst as <-.
    cbn [highlight_lines]. rewrite build_segments_unloaded by assumption.
    cbn [line_states zip zip_with take flat_map]. rewrite app_nil_r. reflexivity.
  - cbn [highlight_lines].
    rewrite (Hbefore 0%nat line0 state (Nat.lt_0_succ i) eq_refl eq_refl).
    cbn [build_segments].
    change (codeToHTML σ line0 []) with (σ, EmptyString). cbv beta iota zeta.
    rewrite (IH text _ σ next _ _ line st Hline Hst Htok).
    + cbn [line_states zip zip_with take flat_map].
      rewrite <- !app_assoc. reflexivity.
    + intros j line' st' Hj Hline' Hst'.
      apply (Hbefore (S j) line' st'); [lia|assumption|assumption].
Qed.

(** X14. A line for which the tokenizer reports no token is written as the
    empty string, whatever its text is. So when no line of the text has a
    token, the text is highlighted without any look at the theme, loaded or
    not: the grammar is called as for any text, and the result is the empty
    lines, joined by newlines, between the two tags. *)
Theorem highlightText_tokenless `{Builtins} `{Textmate} (this : Highlighter)
    (σ : store) (next : loc) (text : list string) (language : GrammarKey)
    (grammar : IGrammar) :
  loadGrammar language = Some grammar ->
  let states := line_states grammar text INITIAL in
  (forall (i : nat) (line : string) (state : StackElement),
     text !! i = Some line -> states !! i = Some state ->
     ITokenizeLineResult.tokens (tokenizeLine grammar line state) = []) ->
  highlightText this σ next text language
  = (flat_map calls_of (zip text states),
     inr ("<pre><code>"
          +:+ String.concat newline (map (fun _ => EmptyString) text)
          +:+ "</code></pre>")).
Proof.
  intros Hload states Hnone. unfold highlightText. rewrite Hload.
  rewrite highlight_lines_tokenless by exact Hnone. reflexivity.
Qed.

Lemma highlightText_tokenless_witness :
  @highlightText ascii_builtins (example_textmate_blank metadata_fg1_bold)
    example_highlighter_unloaded empty_store 0%nat [EmptyString; EmptyString] JAVASCRIPT
  = ([@Call_tokenizeLine2 (example_textmate_blank metadata_fg1_bold) EmptyString 0%nat;
      @Call_tokenizeLine (example_textmate_blank metadata_fg1_bold) EmptyString 0%nat;
      @Call_tokenizeLine2 (example_textmate_blank metadata_fg1_bold) EmptyString 1%nat;
      @Call_tokenizeLine (example_textmate_blank metadata_fg1_bold) EmptyString 1%nat],
     inr ("<pre><code>" +:+ newline +:+ "</code></pre>")).
Proof.
  apply (@highlightText_tokenless ascii_builtins (example_textmate_blank metadata_fg1_bold)
           example_highlighter_unloaded empty_store 0%nat [EmptyString; EmptyString]
           JAVASCRIPT tt eq_refl).
  intros i line state Hline Hstate.
  destruct i as [|[|i]]; simpl in Hline; inversion Hline; reflexivity.
Defined.

(** X15. When [highlightText] runs before the theme is loaded, with a
    grammar that loads, it throws a [TypeError] at the first line for which
    the tokenizer reports a token: the grammar has been called for the
    lines up to that one, that one included, and for no line after it. *)
Theorem highlightText_theme_not_loaded `{Builtins} `{Textmate} (this : Highlighter)
    (σ : store) (next : loc) (text : list string) (language : GrammarKey)
    (grammar : IGrammar) (i : nat) (line : string) (state : StackElement) :
  classNameMap this = None \/ colorMap this = None ->
  loadGrammar language = Some grammar ->
  let states := line_states grammar text INITIAL in
  text !! i = Some line -> states !! i = Some state ->
  ITokenizeLineResult.tokens (tokenizeLine grammar line state) <> [] ->
  (forall (j : nat) (line' : string) (state' : StackElement),
     (j < i)%nat -> text !! j = Some line' -> states !! j = Some state' ->
     ITokenizeLineResult.tokens (tokenizeLine grammar line' state') = []) ->
  highlightText this σ next text language
  = (flat_map calls_of (take (S i) (zip text states)), inl TypeError).
Proof.
  intros Hun Hload states Hline Hstate Htok Hbefore.
  unfold highlightText. rewrite Hload.
  rewrite (highlight_lines_unloaded this grammar i Hun text INITIAL σ next [] []
             line state Hline Hstate Htok Hbefore).
  reflexivity.
Qed.

Lemma highlightText_theme_not_loaded_witness :
  @highlightText ascii_builtins (example_textmate_blank metadata_fg1_bold)
    example_highlighter_unloaded empty_store 0%nat [EmptyString; "ab"; "c"] JAVASCRIPT
  = ([@Call_tokenizeLine2 (example_textmate_blank metadata_fg1_bold) EmptyString 0%nat;
      @Call_tokenizeLine (example_textmate_blank metadata_fg1_bold) EmptyString 0%nat;
      @Call_tokenizeLine2 (example_textmate_blank metadata_fg1_bold) "ab" 1%nat;
      @Call_tokenizeLine (example_textmate_blank metadata_fg1_bold) "ab" 1%nat],
     inl TypeError).
Proof.
  apply (@highlightText_theme_not_loaded ascii_builtins
           (example_textmate_blank metadata_fg1_bold)
           example_highlighter_unloaded empty_store 0%nat [EmptyString; "ab"; "c"]
           JAVASCRIPT tt 1%nat "ab" 1%nat).
  - left. reflexivity.
  - reflexivity.
  - reflexivity.
  - reflexivity.
  - simpl. discriminate.
  - intros j line' state' Hj Hline Hstate.
    assert (j = 0%nat) as -> by lia.
    simpl in Hline. inversion Hline. reflexivity.
Defined.

Lemma highlight_lines_unloaded_heap `{Builtins} `{Textmate} (this : Highlighter)
    (grammar : IGrammar) (text : list string) :
  classNameMap this = None \/ colorMap this = None ->
  forall (state : StackElement) (σ σ' : store) (next next' : loc) (output : list string)
         (calls : list tokenizer_call),
    highlight_lines this grammar text state σ next output calls
    = highlight_lines this grammar text state σ' next' output calls.
Proof.
  intros Hun. induction text as [|line text IH]; intros state σ σ' next next' output calls;
    [reflexivity|].
  cbn [highlight_lines].
  destruct (ITokenizeLineResult.tokens (tokenizeLine grammar line state)) as [|token full]
    eqn:Hfull.
  - cbn [build_segments].
    change (codeToHTML σ line []) with (σ, EmptyString).
    change (codeToHTML σ' line []) with (σ', EmptyString). cbv beta iota zeta.
    apply IH.
  - rewrite !build_segments_unloaded by (assumption || discriminate). reflexivity.
Qed.

(** X16. What [highlightText] returns, and the calls it makes, do not
    depend on the objects that are on the heap when it is called, nor on
    where it puts its own: the segments of a line are new objects, and the
    writes of the merge pass reach no other line and no other call. *)
Theorem highlightText_heap_independent `{Builtins} `{Textmate} (this : Highlighter)
    (σ σ' : store) (next next' : loc) (text : list string) (language : GrammarKey) :
  highlightText this σ next text language = highlightText this σ' next' text language.
Proof.
  unfold highlightText. destruct (loadGrammar language) as [grammar|]; [|reflexivity].
  destruct this as [[classes|] [colors|]].
  - rewrite !highlight_lines_loaded. reflexivity.
  - apply (f_equal (fun r => let '(calls, r') := r in (calls, _))).
    apply highlight_lines_unloaded_heap. right. reflexivity.
  - apply (f_equal (fun r => let '(calls, r') := r in (calls, _))).
    apply highlight_lines_unloaded_heap. left. reflexivity.
  - apply (f_equal (fun r => let '(calls, r') := r in (calls, _))).
    apply highlight_lines_unloaded_heap. left. reflexivity.
Qed.

(** ** Tags, grammar keys and grammar files *)

Lemma extensionToGrammarKey_entries (tag : string) (k : GrammarKey) :
  extensionToGrammarKey !! tag = Some k ->
  (tag, k) ∈ [("js", JAVASCRIPT); ("ts", TYPESCRIPT); ("go", GO); ("dart", DART);
              ("html", HTML); ("css", CSS); ("handlebars", HANDLEBARS); ("yaml", YAML)].
Proof. intros Hown. apply (elem_of_list_to_map_2 _ _ _ Hown). Qed.

Ltac table_cases H :=
  apply extensionToGrammarKey_entries in H;
  repeat (apply elem_of_cons in H as [H | H]);
  [.. | apply elem_of_nil in H; contradiction].

(** X17. For a tag that is not a name of [Object.prototype], [syntaxName]
    returns a grammar key: the one of the table for a tag of the table, and
    the plain-text key for any other tag and for no tag of the table. It
    writes at most one line to the console, and none exactly when the tag
    is empty or in the table. *)
Theorem syntaxName_returns_key (tag : string) :
  tag ∉ Object_prototype_keys ->
  exists k : GrammarKey,
    (syntaxName tag).2 = OwnKey k
    /\ (k = TEXT <-> extensionToGrammarKey !! tag = None)
    /\ (k <> TEXT -> extensionToGrammarKey !! tag = Some k)
    /\ ((syntaxName tag).1 = []
        <-> tag = EmptyString \/ is_Some (extensionToGrammarKey !! tag))
    /\ (length (syntaxName tag).1 <= 1)%nat.
Proof.
  intros Hproto. rewrite (syntaxName_off_prototype tag Hproto).
  destruct (extensionToGrammarKey !! tag) as [k|] eqn:Hown.
  - exists k. cbn [fst snd length]. split; [reflexivity|].
    split; [|split; [reflexivity|split; [|lia]]].
    + split; [|discriminate]. intros ->. exfalso.
      table_cases Hown; discriminate Hown.
    + split; [intros _; right; eexists; reflexivity|reflexivity].
  - exists TEXT. cbn [fst snd]. split; [reflexivity|].
    split; [tauto|]. split; [congruence|].
    destruct (decide (tag = EmptyString)) as [->|Hne]; cbn [length].
    + split; [|lia]. split; [intros _; left; reflexivity|reflexivity].
    + split; [|lia]. split; [discriminate|].
      intros [Hempty|[k Hk]]; [contradiction|discriminate].
Qed.

Lemma syntaxName_returns_key_witness :
  exists k : GrammarKey,
    (syntaxName "markdown").2 = OwnKey k
    /\ (k = TEXT <-> extensionToGrammarKey !! "markdown" = None)
    /\ (k <> TEXT -> extensionToGrammarKey !! "markdown" = Some k)
    /\ ((syntaxName "markdown").1 = []
        <-> "markdown" = EmptyString \/ is_Some (extensionToGrammarKey !! "markdown"))
    /\ (length (syntaxName "markdown").1 <= 1)%nat.
Proof. apply (syntaxName_returns_key "markdown"). compute_done. Defined.

(** X18. The tables of the grammars confuse nothing: two grammar keys with
    the same scope name, or with the same grammar file, are the same key,
    and two tags of the table of extensions with the same key are the same
    tag. *)
Theorem grammar_tables_injective :
  (forall k k' : GrammarKey, GrammarKey_value k = GrammarKey_value k' -> k = k')
  /\ (forall k k' : GrammarKey, grammarKeyToSyntax k = grammarKeyToSyntax k' -> k = k')
  /\ (forall (tag tag' : string) (k : GrammarKey),
        extensionToGrammarKey !! tag = Some k -> extensionToGrammarKey !! tag' = Some k ->
        tag = tag').
Proof.
  split; [|split].
  - intros [] []; vm_compute; intros Heq; first [reflexivity | discriminate Heq].
  - intros [] []; vm_compute; intros Heq; first [reflexivity | discriminate Heq].
  - intros tag tag' k Htag Htag'.
    table_cases Htag; table_cases Htag'; congruence.
Qed.

(** ** The class names of a token *)

(** X19. With the theme loaded, the class names of a token's segment are
    one class for the colour, which can be [undefined], followed by some of
    the three style classes in the order bold, italic, underline. For a
    line whose packed stream is empty the metadata is [undefined], which
    reads as 0: the class is that of colour id 0 and no style class
    follows. *)
Theorem token_classNames_shape (classes : JSMap.t) (colors : list (option string))
    (binary_tokens : list Z) (token : IToken.t) :
  let this := {| classNameMap := Some classes; colorMap := Some colors |} in
  (exists (color : option string) (styles : list (option string)),
     token_classNames this binary_tokens token = inr (color :: styles)
     /\ styles `sublist_of` [Some "mtkb"; Some "mtki"; Some "mtku"])
  /\ token_classNames this [] token = inr [array_get colors 0 ≫= JSMap.get classes].
Proof.
  intros this. subst this. split.
  - rewrite token_classNames_loaded. unfold class_names_of.
    eexists _, _. split; [reflexivity|].
    destruct (DecodedTokenMeta.bold _), (DecodedTokenMeta.italic _),
      (DecodedTokenMeta.underline _); cbn [app];
      repeat first [apply sublist_nil_l | apply sublist_skip | apply sublist_cons].
  - rewrite token_classNames_loaded. unfold class_names_of, getMetaAtPosition.
    rewrite getMetaAtPosition_from_body. reflexivity.
Qed.

(** ** Reading a colour *)

Lemma parseInt16_0x (rest : string) :
  ParseInt.parseInt16 ("0x" +:+ rest) = ParseInt.digits rest None.
Proof.
  change ("0x" +:+ rest) with (String "0" (String "x" rest)).
  unfold ParseInt.parseInt16.
  change (Str.trimStart (String "0" (String "x" rest))) with (String "0" (String "x" rest)).
  change (ParseInt.strip_sign (String "0" (String "x" rest)))
    with (1, String "0" (String "x" rest)).
  cbv beta iota zeta.
  change (ParseInt.strip_prefix (String "0" (String "x" rest))) with rest.
  destruct (ParseInt.digits rest None) as [value|]; [|reflexivity].
  cbn. f_equal. destruct value; reflexivity.
Qed.

Lemma digits_template_pair (s : string) (i : nat) :
  ParseInt.digits (template_char_at s i +:+ template_char_at s (S i)) None
  = two_hex_digits s i.
Proof.
  unfold two_hex_digits, hex_at, template_char_at, char_at.
  destruct (String.get i s) as [c|];
    cbn [fmap option_fmap option_map default from_option id mbind option_bind];
    [|reflexivity].
  change (String c EmptyString +:+ ?r) with (String c r).
  cbn [ParseInt.digits]. destruct (ParseInt.hex_digit c) as [hi|]; [|reflexivity].
  cbn [default from_option id].
  destruct (String.get (S i) s) as [c'|];
    cbn [fmap option_fmap option_map default from_option id mbind option_bind].
  - cbn [ParseInt.digits]. destruct (ParseInt.hex_digit c') as [lo|];
      cbn [default from_option id]; f_equal; try lia.
  - change (ParseInt.digits "undefined" (Some (16 * 0 + hi))) with (Some (16 * 0 + hi)).
    f_equal; try lia.
Qed.

Lemma hex_digit_bounds (c : ascii) (v : Z) : ParseInt.hex_digit c = Some v -> 0 <= v <= 15.
Proof.
  unfold ParseInt.hex_digit. set (n := Z.of_N (N_of_ascii c)).
  destruct ((48 <=? n) && (n <=? 57)) eqn:H1;
    [|destruct ((65 <=? n) && (n <=? 70)) eqn:H2;
      [|destruct ((97 <=? n) && (n <=? 102)) eqn:H3; [|discriminate]]];
    intros [= <-]; lia.
Qed.

Lemma hexToRGB_parts (s : string) :
  hexToRGB s = (two_hex_digits s 1, two_hex_digits s 3, two_hex_digits s 5).
Proof. unfold hexToRGB. rewrite !parseInt16_0x, !digits_template_pair. reflexivity. Qed.

(** X20. Each of the three numbers of [hexToRGB] is read from two
    characters of the string, those at 1 and 2, at 3 and 4, at 5 and 6: it is
    [NaN] when the first of the two is missing or is no hexadecimal digit,
    the value of the first alone when the second is missing or no digit,
    and sixteen times the first plus the second otherwise; so it lies between
    0 and 255. The character at 0 and those from 7 on are not looked at. *)
Theorem hexToRGB_components (s : string) :
  hexToRGB s = (two_hex_digits s 1, two_hex_digits s 3, two_hex_digits s 5)
  /\ (forall (i : nat) (v : Z), two_hex_digits s i = Some v -> 0 <= v <= 255)
  /\ (forall (c c' : ascii) (body tail tail' : string),
        String.length body = 6%nat ->
        hexToRGB (String c (body +:+ tail)) = hexToRGB (String c' (body +:+ tail'))).
Proof.
  split; [apply hexToRGB_parts|]. split.
  - intros i v. unfold two_hex_digits, hex_at.
    destruct (String.get i s) as [c|]; cbn [mbind option_bind]; [|discriminate].
    destruct (ParseInt.hex_digit c) as [hi|] eqn:Hhi; [|discriminate].
    apply hex_digit_bounds in Hhi.
    destruct (String.get (S i) s) as [c'|]; cbn [mbind option_bind].
    + destruct (ParseInt.hex_digit c') as [lo|] eqn:Hlo; intros [= <-]; [|lia].
      apply hex_digit_bounds in Hlo. lia.
    + intros [= <-]. lia.
  - intros c c' body tail tail' Hlen. rewrite !hexToRGB_parts.
    destruct body as [|b1 [|b2 [|b3 [|b4 [|b5 [|b6 [|b7 body]]]]]]]; try discriminate Hlen.
    reflexivity.
Qed.

Lemma hexToRGB_components_witness :
  hexToRGB "#bababa" = (Some 186, Some 186, Some 186)
  /\ hexToRGB "#ffffff" = hexToRGB "xffffff; and more".
Proof.
  split.
  - apply (proj1 (hexToRGB_components "#bababa")).
  - apply (proj2 (proj2 (hexToRGB_components "#ffffff")) "#"%char "x"%char "ffffff"
             EmptyString "; and more").
    reflexivity.
Defined.

Lemma hex_digit_toUpperCase (c : ascii) :
  ParseInt.hex_digit (ascii_toUpperCase_char c) = ParseInt.hex_digit c.
Proof. destruct c as [[] [] [] [] [] [] [] []]; reflexivity. Qed.

Lemma get_toUpperCase (s : string) :
  forall i : nat,
    String.get i (ascii_toUpperCase s) = ascii_toUpperCase_char <$> String.get i s.
Proof.
  induction s as [|c s IH]; intros i; [reflexivity|].
  change (ascii_toUpperCase (String c s))
    with (String (ascii_toUpperCase_char c) (ascii_toUpperCase s)).
  destruct i as [|i]; [reflexivity|]. cbn [String.get]. apply IH.
Qed.

(** X21. [hexToRGB] reads the letters of a colour in either case: with
    its letters a to z put in upper case, as in the keys of the class map,
    a colour gives the numbers it gives as the theme spells it. *)
Theorem hexToRGB_toUpperCase (s : string) :
  hexToRGB (ascii_toUpperCase s) = hexToRGB s.
Proof.
  assert (Hat : forall i : nat, hex_at (ascii_toUpperCase s) i = hex_at s i).
  { intros i. unfold hex_at. rewrite get_toUpperCase.
    destruct (String.get i s) as [c|]; [|reflexivity].
    cbn [fmap option_fmap option_map mbind option_bind]. apply hex_digit_toUpperCase. }
  rewrite !hexToRGB_parts. unfold two_hex_digits. rewrite !Hat. reflexivity.
Qed.

(** ** Changing the extension of a file name *)

Lemma string_length_app (s1 s2 : string) :
  String.length (s1 +:+ s2) = (String.length s1 + String.length s2)%nat.
Proof.
  induction s1 as [|c s1 IH]; [reflexivity|].
  rewrite string_app_cons. cbn [String.length]. rewrite IH. reflexivity.
Qed.

Lemma substring_prefix (s1 s2 : string) :
  substring 0 (String.length s1) (s1 +:+ s2) = s1.
Proof.
  induction s1 as [|c s1 IH].
  - change (EmptyString +:+ s2) with s2. destruct s2; reflexivity.
  - rewrite string_app_cons. cbn [String.length substring]. rewrite IH. reflexivity.
Qed.

Lemma slice_prefix (s1 s2 : string) :
  Str.slice (s1 +:+ s2) 0 (Z.of_nat (String.length s1)) = s1.
Proof.
  rewrite slice_substring by (try rewrite string_length_app; lia).
  rewrite Z.sub_0_r, Nat2Z.id. apply substring_prefix.
Qed.

Lemma slice_whole (s : string) : slice_to s 0 None = s.
Proof.
  unfold slice_to. cbn [default from_option id].
  rewrite <- (string_app_nil_r s) at 1. rewrite slice_prefix. reflexivity.
Qed.

Lemma trimExt_stem `{PathLib} (filename stem : string) (ignoreExts : list string)
    (maxSize : Z) :
  filename = stem +:+ extname filename ->
  trimExt filename ignoreExts maxSize
  = if isValidExt (extname filename) ignoreExts maxSize && Str.truthy stem
    then stem else filename.
Proof.
  intros Hsplit. unfold trimExt.
  destruct (isValidExt (extname filename) ignoreExts maxSize); [|reflexivity].
  cbn [andb].
  assert (Hlen : Z.of_nat (String.length filename)
                 - Z.of_nat (String.length (extname filename)) - 1 + 1
                 = Z.of_nat (String.length stem)).
  { rewrite Hsplit at 1. rewrite string_length_app. lia. }
  rewrite Hlen. unfold or_undefined, JS.truthy, Str.truthy.
  destruct stem as [|c stem].
  - cbn. apply slice_whole.
  - change (String.eqb (String c stem) EmptyString) with false.
    destruct (Z.eqb_spec (Z.of_nat (String.length (String c stem))) 0) as [Hz|_];
      [cbn [String.length] in Hz; lia|].
    cbn [negb]. unfold slice_to. cbn [default from_option id].
    rewrite Hsplit at 1. apply slice_prefix.
Qed.

(** X22. Where [extname] gives the end of the file name, after a stem that
    is not empty, and that end is a valid extension, [trimExt] returns the
    stem, and [changeExt] puts the new extension after the stem: with one
    dot between them, whether the new extension is given with its dot or
    without, and nothing at all for the empty extension. *)
Theorem changeExt_replaces `{PathLib} (filename stem : string) (ignoreExts : list string)
    (maxSize : Z) :
  filename = stem +:+ extname filename ->
  stem <> EmptyString ->
  isValidExt (extname filename) ignoreExts maxSize = true ->
  trimExt filename ignoreExts maxSize = stem
  /\ changeExt filename EmptyString ignoreExts maxSize = stem
  /\ (forall e : string,
        changeExt filename ("." +:+ e) ignoreExts maxSize = stem +:+ "." +:+ e)
  /\ (forall (c : ascii) (e : string),
        c <> "."%char ->
        changeExt filename (String c e) ignoreExts maxSize = stem +:+ "." +:+ String c e).
Proof.
  intros Hsplit Hstem Hvalid.
  assert (Htrim : trimExt filename ignoreExts maxSize = stem).
  { rewrite (trimExt_stem filename stem ignoreExts maxSize Hsplit), Hvalid.
    destruct stem; [contradiction|reflexivity]. }
  split; [exact Htrim|]. unfold changeExt. rewrite Htrim.
  split; [apply string_app_nil_r|]. split.
  - intros e. reflexivity.
  - intros c e Hc.
    change (Str.truthy (String c e)) with true. cbn [negb].
    rewrite bool_decide_eq_false_2; [reflexivity|].
    unfold char_at. cbn. intros [= Heq]. contradiction.
Qed.

Lemma changeExt_replaces_witness :
  @changeExt example_pathlib "index.md" "html" [] 7 = "index.html"
  /\ @changeExt example_pathlib "index.md" ".html" [] 7 = "index.html".
Proof.
  destruct (@changeExt_replaces example_pathlib "index.md" "index" [] 7)
    as (_ & _ & Hdot & Hbare).
  - reflexivity.
  - discriminate.
  - reflexivity.
  - split.
    + apply (Hbare "h"%char "tml"). discriminate.
    + apply (Hdot "html").
Defined.

(** X23. Where the end of the file name that [extname] gives is no valid
    extension, being empty, longer than [maxSize] or in the ignore list, or
    where it is the whole file name, [trimExt] returns the file name as it
    is, and [changeExt] puts the new extension after it. *)
Theorem changeExt_appends `{PathLib} (filename : string) (ignoreExts : list string)
    (maxSize : Z) :
  isValidExt (extname filename) ignoreExts maxSize = false
  \/ extname filename = filename ->
  trimExt filename ignoreExts maxSize = filename
  /\ changeExt filename EmptyString ignoreExts maxSize = filename
  /\ (forall e : string,
        changeExt filename ("." +:+ e) ignoreExts maxSize = filename +:+ "." +:+ e)
  /\ (forall (c : ascii) (e : string),
        c <> "."%char ->
        changeExt filename (String c e) ignoreExts maxSize = filename +:+ "." +:+ String c e).
Proof.
  intros Hcase.
  assert (Htrim : trimExt filename ignoreExts maxSize = filename).
  { destruct Hcase as [Hinvalid|Hwhole].
    - unfold trimExt. rewrite Hinvalid. reflexivity.
    - rewrite (trimExt_stem filename EmptyString ignoreExts maxSize)
        by (symmetry; exact Hwhole).
      rewrite andb_false_r. reflexivity. }
  split; [exact Htrim|]. unfold changeExt. rewrite Htrim.
  split; [apply string_app_nil_r|]. split.
  - intros e. reflexivity.
  - intros c e Hc.
    change (Str.truthy (String c e)) with true. cbn [negb].
    rewrite bool_decide_eq_false_2; [reflexivity|].
    unfold char_at. cbn. intros [= Heq]. contradiction.
Qed.

Lemma changeExt_appends_witness :
  @changeExt example_pathlib "archive.backup01" "gz" [] 7 = "archive.backup01.gz"
  /\ @changeExt example_pathlib "notes.md" "html" ["md"] 7 = "notes.md.html"
  /\ @changeExt example_pathlib "Makefile" ".bak" [] 7 = "Makefile.bak".
Proof.
  split; [|split].
  - apply (proj2 (proj2 (proj2
      (@changeExt_appends example_pathlib "archive.backup01" [] 7 (or_introl eq_refl))))
      "g"%char "z"). discriminate.
  - apply (proj2 (proj2 (proj2
      (@changeExt_appends example_pathlib "notes.md" ["md"] 7 (or_introl eq_refl))))
      "h"%char "tml"). discriminate.
  - apply (proj1 (proj2 (proj2
      (@changeExt_appends example_pathlib "Makefile" [] 7 (or_introl eq_refl))))
      "bak").
Defined.

Lemma dotted_ignore_dot (e : string) : dotted_ignore ("." +:+ e) = "." +:+ e.
Proof. reflexivity. Qed.

Lemma dotted_ignore_idempotent (e : string) : dotted_ignore (dotted_ignore e) = dotted_ignore e.
Proof.
  destruct e as [|c e]; [reflexivity|].
  assert (Hcases : dotted_ignore (String c e) = String c e /\ c = "."%char
                   \/ dotted_ignore (String c e) = "." +:+ String c e).
  { unfold dotted_ignore. change (Str.truthy (String c e)) with true. cbn [andb].
    destruct (bool_decide (char_at (String c e) 0 = Some ".")) eqn:Hdot; cbn [negb].
    - left. split; [reflexivity|].
      apply bool_decide_eq_true_1 in Hdot. unfold char_at in Hdot. cbn in Hdot.
      congruence.
    - right. reflexivity. }
  destruct Hcases as [[Heq ->] | Heq].
  - rewrite Heq. exact Heq.
  - rewrite Heq. apply dotted_ignore_dot.
Qed.

(** X24. An extension is valid only if it is not empty and not longer than
    [maxSize]. An entry of the ignore list counts with a dot before it,
    whether it is written with that dot or without: writing the dots out
    changes nothing, and no entry, so read, is a valid extension. *)
Theorem isValidExt_ignore_list (ext : string) (ignoreExts : list string) (maxSize : Z) :
  (isValidExt ext ignoreExts maxSize = true ->
   ext <> EmptyString /\ Z.of_nat (String.length ext) <= maxSize)
  /\ isValidExt ext (map dotted_ignore ignoreExts) maxSize
     = isValidExt ext ignoreExts maxSize
  /\ (forall e : string,
        e ∈ ignoreExts -> isValidExt (dotted_ignore e) ignoreExts maxSize = false).
Proof.
  split; [|split].
  - unfold isValidExt, Str.truthy. intros Hvalid.
    apply andb_true_iff in Hvalid as [Hvalid _].
    apply andb_true_iff in Hvalid as [Hne Hlen].
    split.
    + apply negb_true_iff, String.eqb_neq in Hne. exact Hne.
    + apply Z.leb_le, Hlen.
  - unfold isValidExt. rewrite map_map.
    rewrite (map_ext _ dotted_ignore dotted_ignore_idempotent). reflexivity.
  - intros e He. unfold isValidExt.
    rewrite (bool_decide_eq_true_2 (dotted_ignore e ∈ map dotted_ignore ignoreExts)).
    + apply andb_false_r.
    + apply list_elem_of_In, in_map, list_elem_of_In, He.
Qed.

Lemma isValidExt_ignore_list_witness :
  String.length ".md" = 3%nat
  /\ isValidExt ".md" ["md"; ".txt"] 7 = false.
Proof.
  split; [reflexivity|].
  apply (proj2 (proj2 (isValidExt_ignore_list ".md" ["md"; ".txt"] 7)) "md").
  apply list_elem_of_In. left. reflexivity.
Defined.
